(** * Halo tool engine: resilience, state and orchestration core

    A shallow embedding of the TypeScript sources into Rocq.  Every class is
    a module; the private fields of a class become a record (or a finite
    map) that is threaded explicitly through its methods, and every read of
    [Date.now()] becomes an explicit [now] argument in milliseconds.
    Emitted events ([this.emit]) carry no state and are left out.
    Numbers are modelled as [Z]: all the quantities below (counters,
    millisecond time stamps, quotas) are integers in the sources. *)

From Stdlib Require Import ZArith Lia List Bool Ascii Sorted.
From stdpp Require Import base option list gmap strings pretty.

Local Open Scope Z_scope.
#[local] Set Warnings "-clear-no-such-hyp".

(* ====================================================================== *)
(** ** src/resilience/CircuitBreaker.ts *)
(* ====================================================================== *)

Module CircuitBreaker.

(** [type CircuitBreakerState = 'closed' | 'open' | 'half-open'] *)
Inductive CircuitBreakerState : Type :=
  | closed
  | open
  | half_open.

(** [interface CircuitBreakerConfig]; [monitoringPeriodMs] is never read. *)
Record CircuitBreakerConfig : Type := {
  failureThreshold : Z;
  resetTimeoutMs : Z;
}.

(** [interface CircuitBreakerStats] *)
Record CircuitBreakerStats : Type := {
  failures : Z;
  successes : Z;
  lastFailureTime : Z;
  lastSuccessTime : Z;
  state : CircuitBreakerState;
}.

(** [private circuits: Map<string, CircuitBreakerStats>] *)
Abbreviation circuits := (gmap string CircuitBreakerStats).

Definition defaultConfig : CircuitBreakerConfig :=
  {| failureThreshold := 5; resetTimeoutMs := 60000 |}.

(** [{ ...this.defaultConfig, ...config }] with an optional [config]. *)
Definition effectiveConfig (config : option CircuitBreakerConfig) : CircuitBreakerConfig :=
  match config with
  | Some c => c
  | None => defaultConfig
  end.

(** The record [getStats] stores for a circuit it has not seen yet. *)
Definition initialStats : CircuitBreakerStats :=
  {| failures := 0; successes := 0; lastFailureTime := 0; lastSuccessTime := 0;
     state := closed |}.

(** [getStats]: creates the record lazily and returns it with the map. *)
Definition getStats (circuitId : string) (cs : circuits) : CircuitBreakerStats * circuits :=
  match cs !! circuitId with
  | Some s => (s, cs)
  | None => (initialStats, <[circuitId := initialStats]> cs)
  end.

Definition getState (circuitId : string) (cs : circuits) : CircuitBreakerState :=
  state (fst (getStats circuitId cs)).

Definition set_state (st : CircuitBreakerState) (s : CircuitBreakerStats) : CircuitBreakerStats :=
  {| failures := failures s; successes := successes s;
     lastFailureTime := lastFailureTime s; lastSuccessTime := lastSuccessTime s;
     state := st |}.

(** [transitionToOpen]: [stats.state = 'open'] *)
Definition transitionToOpen (circuitId : string) (cs : circuits) : circuits :=
  let '(s, cs) := getStats circuitId cs in
  <[circuitId := set_state open s]> cs.

(** [transitionToClosed]: [stats.state = 'closed'; stats.failures = 0] *)
Definition transitionToClosed (circuitId : string) (cs : circuits) : circuits :=
  let '(s, cs) := getStats circuitId cs in
  <[circuitId := {| failures := 0; successes := successes s;
                    lastFailureTime := lastFailureTime s;
                    lastSuccessTime := lastSuccessTime s;
                    state := closed |}]> cs.

(** [transitionToHalfOpen]: [stats.state = 'half-open'] *)
Definition transitionToHalfOpen (circuitId : string) (cs : circuits) : circuits :=
  let '(s, cs) := getStats circuitId cs in
  <[circuitId := set_state half_open s]> cs.

(** [isOpen(circuitId, config)] at clock reading [now]. *)
Definition isOpen (circuitId : string) (config : option CircuitBreakerConfig)
    (now : Z) (cs : circuits) : bool * circuits :=
  let '(stats, cs) := getStats circuitId cs in
  let cfg := effectiveConfig config in
  match state stats with
  | open =>
      let timeSinceLastFailure := now - lastFailureTime stats in
      if resetTimeoutMs cfg <=? timeSinceLastFailure
      then (false, transitionToHalfOpen circuitId cs)
      else (true, cs)
  | _ => (false, cs)
  end.

(** [recordSuccess(circuitId)] at clock reading [now]. *)
Definition recordSuccess (circuitId : string) (now : Z) (cs : circuits) : circuits :=
  let '(stats, cs) := getStats circuitId cs in
  let stats' := {| failures := failures stats; successes := successes stats + 1;
                   lastFailureTime := lastFailureTime stats; lastSuccessTime := now;
                   state := state stats |} in
  let cs := <[circuitId := stats']> cs in
  match state stats' with
  | half_open => transitionToClosed circuitId cs
  | open => transitionToClosed circuitId cs
  | closed => cs
  end.

(** [recordFailure(circuitId, config)] at clock reading [now]. *)
Definition recordFailure (circuitId : string) (config : option CircuitBreakerConfig)
    (now : Z) (cs : circuits) : circuits :=
  let '(stats, cs) := getStats circuitId cs in
  let cfg := effectiveConfig config in
  let stats' := {| failures := failures stats + 1; successes := successes stats;
                   lastFailureTime := now; lastSuccessTime := lastSuccessTime stats;
                   state := state stats |} in
  let cs := <[circuitId := stats']> cs in
  match state stats' with
  | closed =>
      if failureThreshold cfg <=? failures stats'
      then transitionToOpen circuitId cs
      else cs
  | half_open => transitionToOpen circuitId cs
  | open => cs
  end.

(** The failure counter of a circuit, as [getStats(id).failures] reads it. *)
Definition failureCount (circuitId : string) (cs : circuits) : Z :=
  failures (fst (getStats circuitId cs)).

(** What a caller reports to the breaker after a call: [recordSuccess] or
    [recordFailure], each with the clock reading of the report. *)
Inductive report : Type :=
  | Succeeded (now : Z)
  | Failed (now : Z).

Definition record (circuitId : string) (config : option CircuitBreakerConfig)
    (cs : circuits) (r : report) : circuits :=
  match r with
  | Succeeded now => recordSuccess circuitId now cs
  | Failed now => recordFailure circuitId config now cs
  end.

Definition recordAll (circuitId : string) (config : option CircuitBreakerConfig)
    (rs : list report) (cs : circuits) : circuits :=
  fold_left (record circuitId config) rs cs.

Definition is_failure (r : report) : bool :=
  match r with Failed _ => true | Succeeded _ => false end.

(** Number of failures among the reports. *)
Definition failuresIn (rs : list report) : Z :=
  Z.of_nat (length (List.filter is_failure rs)).


(** [reset(circuitId)] *)
Definition reset (circuitId : string) (cs : circuits) : circuits :=
  delete circuitId cs.

(** [forceOpen(circuitId)] and [forceClosed(circuitId)] *)
Definition forceOpen (circuitId : string) (cs : circuits) : circuits :=
  transitionToOpen circuitId (snd (getStats circuitId cs)).

Definition forceClosed (circuitId : string) (cs : circuits) : circuits :=
  transitionToClosed circuitId (snd (getStats circuitId cs)).

(** What [execute] throws: its own [CircuitBreakerError], or the error of
    the operation. *)
Inductive rejection (E : Type) : Type :=
  | CircuitBreakerError (circuitId : string)
  | OperationError (error : E).
Arguments CircuitBreakerError {E} circuitId.
Arguments OperationError {E} error.

(** [execute(circuitId, operation, config)].  [outcome] is how the promise
    of [operation()] settles if it is called; [now] is the clock reading
    of the [isOpen] check and [later] the one of the report.  The result
    says what [execute] returns or throws and whether the operation was
    called. *)
Definition execute {T E : Type} (circuitId : string) (outcome : T + E)
    (config : option CircuitBreakerConfig) (now later : Z) (cs : circuits)
    : (T + rejection E) * bool * circuits :=
  let '(isopen, cs) := isOpen circuitId config now cs in
  if isopen then (inr (CircuitBreakerError circuitId), false, cs)
  else
    match outcome with
    | inl result => (inl result, true, recordSuccess circuitId later cs)
    | inr error => (inr (OperationError error), true,
                    recordFailure circuitId config later cs)
    end.

End CircuitBreaker.

(* ====================================================================== *)
(** ** RequestDeduplicator (src/unnamed/part_006) *)
(* ====================================================================== *)

(** The deduplicator is asynchronous code on a single-threaded event loop.
    The model makes the loop explicit: an [execute] call runs synchronously
    up to its [await], the rest of its body is a continuation queued as a
    microtask, and the promise returned by [operation()] settles at some
    later step.  Callers and operation invocations are named by numbers so
    that "the same result object" can be told apart from "an equal result
    computed again". *)

Module RequestDeduplicator.

(** How a promise settles.  A result is an [IToolResult] object (always
    truthy), named by [result]; an error is any thrown value, named by
    [error], with the truthiness that [if (error)] tests. *)
Inductive settlement : Type :=
  | Fulfilled (result : nat)
  | RejectedWith (error : nat) (truthy : bool).

(** [interface PendingRequest]; [promise] is the promise of the operation
    invocation [promise_of], [resolvers] the callers queued on it. *)
Record PendingRequest : Type := {
  promise_of : nat;
  timestamp : Z;
  resolvers : list nat;
}.

(** One [operation()] call: the caller whose [execute] made it (and whose
    returned promise it is), its key, and whether [registerRequest] attached
    the completion handlers to its promise. *)
Record invocation : Type := {
  inv_caller : nat;
  inv_key : string;
  inv_registered : bool;
}.

Record deduplicator : Type := {
  (** [private pendingRequests: Map<string, PendingRequest>] *)
  pendingRequests : gmap string PendingRequest;
  (** continuations of [execute] suspended at [await this.checkAndWait(key)]
      whose awaited value is [null]: (caller, key), oldest first *)
  microtasks : list (nat * string);
  (** every [operation()] call made so far; the n-th has index n *)
  invocations : list invocation;
  (** what each caller's [execute] promise settled with, oldest first *)
  delivered : list (nat * settlement);
}.

Definition empty : deduplicator :=
  {| pendingRequests := ∅; microtasks := []; invocations := []; delivered := [] |}.

(** [checkAndWait(key)] for [caller]: with a pending entry the caller is
    pushed on its resolvers (and stays suspended until completion);
    without one the async function returns [null], and the [await] in
    [execute] queues the caller's continuation. *)
Definition checkAndWait (caller : nat) (key : string) (d : deduplicator) : deduplicator :=
  match pendingRequests d !! key with
  | Some existing =>
      {| pendingRequests :=
           <[key := {| promise_of := promise_of existing;
                       timestamp := timestamp existing;
                       resolvers := resolvers existing ++ [caller] |}]> (pendingRequests d);
         microtasks := microtasks d;
         invocations := invocations d;
         delivered := delivered d |}
  | None =>
      {| pendingRequests := pendingRequests d;
         microtasks := microtasks d ++ [(caller, key)];
         invocations := invocations d;
         delivered := delivered d |}
  end.

(** [registerRequest(key, promise)]: returns at once when the key is
    already pending; otherwise stores the entry and attaches the handlers.
    The result says whether the handlers were attached. *)
Definition registerRequest (key : string) (promise : nat) (now : Z)
    (pending : gmap string PendingRequest) : gmap string PendingRequest * bool :=
  match pending !! key with
  | Some _ => (pending, false)
  | None =>
      (<[key := {| promise_of := promise; timestamp := now; resolvers := [] |}]> pending,
       true)
  end.

(** [execute(key, operation)], first part: everything up to the [await]. *)
Definition execute_call (caller : nat) (key : string) (d : deduplicator) : deduplicator :=
  checkAndWait caller key d.

(** [execute(key, operation)], second part, run as a microtask when the
    awaited [existing] is [null]: [const promise = operation();
    this.registerRequest(key, promise); return promise]. *)
Definition execute_resume (caller : nat) (key : string) (now : Z)
    (d : deduplicator) : deduplicator :=
  let promise := length (invocations d) in
  let '(pending, registered) := registerRequest key promise now (pendingRequests d) in
  {| pendingRequests := pending;
     microtasks := microtasks d;
     invocations := invocations d ++
       [{| inv_caller := caller; inv_key := key; inv_registered := registered |}];
     delivered := delivered d |}.

(** Runs the oldest queued microtask, if any. *)
Definition tick (now : Z) (d : deduplicator) : deduplicator :=
  match microtasks d with
  | [] => d
  | (caller, key) :: rest =>
      execute_resume caller key now
        {| pendingRequests := pendingRequests d; microtasks := rest;
           invocations := invocations d; delivered := delivered d |}
  end.

(** [completeRequest(key, result, error)]: rejects every resolver when the
    error is truthy, resolves every resolver when there is a result, and
    deletes the entry in every case. *)
Definition completeRequest (key : string) (s : settlement) (d : deduplicator) : deduplicator :=
  match pendingRequests d !! key with
  | None => d
  | Some request =>
      let notified :=
        match s with
        | RejectedWith _ true => map (fun c => (c, s)) (resolvers request)
        | RejectedWith _ false => []
        | Fulfilled _ => map (fun c => (c, s)) (resolvers request)
        end in
      {| pendingRequests := delete key (pendingRequests d);
         microtasks := microtasks d;
         invocations := invocations d;
         delivered := delivered d ++ notified |}
  end.

(** The promise of invocation [promise] settles with [s]: the caller that
    got this promise back from [execute] receives [s], and the handlers of
    [registerRequest], when attached, run [completeRequest]. *)
Definition settle (promise : nat) (s : settlement) (d : deduplicator) : deduplicator :=
  match invocations d !! promise with
  | None => d
  | Some inv =>
      let d' := {| pendingRequests := pendingRequests d; microtasks := microtasks d;
                   invocations := invocations d;
                   delivered := delivered d ++ [(inv_caller inv, s)] |} in
      if inv_registered inv then completeRequest (inv_key inv) s d' else d'
  end.

(** The steps of the event loop that involve the deduplicator. *)
Inductive event : Type :=
  | Call (caller : nat) (key : string)
  | Tick (now : Z)
  | Settle (promise : nat) (s : settlement).

Definition step (d : deduplicator) (e : event) : deduplicator :=
  match e with
  | Call caller key => execute_call caller key d
  | Tick now => tick now d
  | Settle promise s => settle promise s d
  end.

Definition run (es : list event) (d : deduplicator) : deduplicator :=
  fold_left step es d.

(** Number of [operation()] calls made for [key]. *)
Definition invocationCount (key : string) (d : deduplicator) : nat :=
  length (filter (fun i => inv_key i = key) (invocations d)).

(** What [caller]'s [execute] promise settled with, if it has settled: a
    promise settles once, with the first settlement delivered to it. *)
Definition outcomeOf (caller : nat) (d : deduplicator) : option settlement :=
  snd <$> List.find (fun p => Nat.eqb (fst p) caller) (delivered d).


(** Whether [completeRequest] settles the waiting callers with [s]: it
    does for a result and for a truthy error. *)
Definition notifies (s : settlement) : bool :=
  match s with
  | RejectedWith _ false => false
  | _ => true
  end.

(** [cancelRequest(key)]; [error] names the [Error] it creates. *)
Definition cancelRequest (key : string) (error : nat) (d : deduplicator)
    : bool * deduplicator :=
  match pendingRequests d !! key with
  | None => (false, d)
  | Some request =>
      (true,
       {| pendingRequests := delete key (pendingRequests d);
          microtasks := microtasks d;
          invocations := invocations d;
          delivered := delivered d ++
            map (fun c => (c, RejectedWith error true)) (resolvers request) |})
  end.

(** [isPending(key)] and [getPendingCount()] *)
Definition isPending (key : string) (d : deduplicator) : bool :=
  bool_decide (is_Some (pendingRequests d !! key)).

Definition getPendingCount (d : deduplicator) : nat :=
  size (pendingRequests d).

(** The events of a first call for [key] by [owner], whose continuation
    runs at [now], followed by calls of [waiters] for the same key. *)
Definition firstThenWaiters (owner : nat) (key : string) (now : Z)
    (waiters : list nat) : list event :=
  [Call owner key; Tick now] ++ map (fun w => Call w key) waiters.
End RequestDeduplicator.

(* ====================================================================== *)
(** ** RateLimiter (src/unnamed/part_007) *)
(* ====================================================================== *)

(** Buckets are objects mutated in place through the reference that
    [getBucket] returns; the model writes the updated bucket back under its
    key.  [checkLimit] reads the clock once ([now]); [enforce] awaits it and
    then, on the admitted path, [getRemainingTokens] reads the clock again
    ([later]).  [Math.floor((timePassed / windowMs) * maxRequests)] is
    computed on exact numbers as [timePassed * maxRequests / windowMs] with
    floor division, for a positive [windowMs]. *)

Module RateLimiter.

Inductive Strategy : Type :=
  | sliding
  | fixed.

(** [interface IRateLimitConfig] *)
Record IRateLimitConfig : Type := {
  maxRequests : Z;
  windowMs : Z;
  strategy : Strategy;
}.

(** [interface RateLimitBucket] *)
Record RateLimitBucket : Type := {
  tokens : Z;
  lastRefill : Z;
  windowStart : Z;
  requestCount : Z;
}.

(** [private buckets: Map<string, RateLimitBucket>] *)
Abbreviation buckets := (gmap string RateLimitBucket).

(** The context object of the [RateLimitError] thrown by [enforce]. *)
Record RateLimitError : Type := {
  err_key : string;
  err_limit : Z;
  err_windowMs : Z;
  err_resetTime : Z;
  err_strategy : Strategy;
}.

Definition freshBucket (config : IRateLimitConfig) (now : Z) : RateLimitBucket :=
  {| tokens := maxRequests config; lastRefill := now; windowStart := now;
     requestCount := 0 |}.

(** [getBucket(key, config)] *)
Definition getBucket (key : string) (config : IRateLimitConfig) (now : Z)
    (bs : buckets) : RateLimitBucket * buckets :=
  match bs !! key with
  | Some b => (b, bs)
  | None => (freshBucket config now, <[key := freshBucket config now]> bs)
  end.

(** [refillSlidingWindow(bucket, config, now)] *)
Definition refillSlidingWindow (b : RateLimitBucket) (config : IRateLimitConfig)
    (now : Z) : RateLimitBucket :=
  let timePassed := now - lastRefill b in
  if windowMs config <=? timePassed then
    {| tokens := tokens b; lastRefill := now; windowStart := windowStart b;
       requestCount := 0 |}
  else
    let refillAmount := timePassed * maxRequests config / windowMs config in
    {| tokens := tokens b;
       lastRefill := if 0 <? refillAmount then now else lastRefill b;
       windowStart := windowStart b;
       requestCount := Z.max 0 (requestCount b - refillAmount) |}.

(** [refillFixedWindow(bucket, config, now)] *)
Definition refillFixedWindow (b : RateLimitBucket) (config : IRateLimitConfig)
    (now : Z) : RateLimitBucket :=
  let windowElapsed := now - windowStart b in
  if windowMs config <=? windowElapsed then
    {| tokens := maxRequests config; lastRefill := now; windowStart := now;
       requestCount := 0 |}
  else b.

(** [checkSlidingWindow(bucket, config, tokens, now)] *)
Definition checkSlidingWindow (b : RateLimitBucket) (config : IRateLimitConfig)
    (n : Z) (now : Z) : bool * RateLimitBucket :=
  let b := refillSlidingWindow b config now in
  if requestCount b + n <=? maxRequests config then
    (true, {| tokens := tokens b; lastRefill := now; windowStart := windowStart b;
              requestCount := requestCount b + n |})
  else (false, b).

(** [checkFixedWindow(bucket, config, tokens, now)] *)
Definition checkFixedWindow (b : RateLimitBucket) (config : IRateLimitConfig)
    (n : Z) (now : Z) : bool * RateLimitBucket :=
  let b := refillFixedWindow b config now in
  if n <=? tokens b then
    (true, {| tokens := tokens b - n; lastRefill := lastRefill b;
              windowStart := windowStart b; requestCount := requestCount b + n |})
  else (false, b).

(** [checkLimit(key, config, tokens)] at clock reading [now]. *)
Definition checkLimit (key : string) (config : IRateLimitConfig) (n : Z) (now : Z)
    (bs : buckets) : bool * buckets :=
  let '(b, bs) := getBucket key config now bs in
  let '(allowed, b) :=
    match strategy config with
    | sliding => checkSlidingWindow b config n now
    | fixed => checkFixedWindow b config n now
    end in
  (allowed, <[key := b]> bs).

(** [getRemainingTokens(key, config)] at clock reading [now]. *)
Definition getRemainingTokens (key : string) (config : IRateLimitConfig) (now : Z)
    (bs : buckets) : Z * buckets :=
  let '(b, bs) := getBucket key config now bs in
  match strategy config with
  | sliding =>
      let b := refillSlidingWindow b config now in
      (Z.max 0 (maxRequests config - requestCount b), <[key := b]> bs)
  | fixed =>
      let b := refillFixedWindow b config now in
      (tokens b, <[key := b]> bs)
  end.

(** [getResetTime(bucket, config)] *)
Definition getResetTime (b : RateLimitBucket) (config : IRateLimitConfig) : Z :=
  match strategy config with
  | sliding => lastRefill b + windowMs config
  | fixed => windowStart b + windowMs config
  end.

(** [enforce(key, config, tokens)]: [inl tt] when the call is admitted,
    [inr e] when [RateLimitError] is thrown. *)
Definition enforce (key : string) (config : IRateLimitConfig) (n : Z)
    (now later : Z) (bs : buckets) : (unit + RateLimitError) * buckets :=
  let '(allowed, bs) := checkLimit key config n now bs in
  if allowed then
    let '(_, bs) := getRemainingTokens key config later bs in
    (inl tt, bs)
  else
    let '(b, bs) := getBucket key config later bs in
    (inr {| err_key := key; err_limit := maxRequests config;
            err_windowMs := windowMs config;
            err_resetTime := getResetTime b config;
            err_strategy := strategy config |}, bs).

(** [executeWithLimit(key, config, operation, tokens)]: the operation is
    started only after [enforce] returned; the result says whether it was. *)
Definition executeWithLimit (key : string) (config : IRateLimitConfig) (n : Z)
    (now later : Z) (bs : buckets) : bool * buckets :=
  match enforce key config n now later bs with
  | (inl _, bs) => (true, bs)
  | (inr _, bs) => (false, bs)
  end.

(** [reset(key)]: [Map.delete] says whether the key was present. *)
Definition reset (key : string) (bs : buckets) : bool * buckets :=
  (bool_decide (is_Some (bs !! key)), delete key bs).

(** [resetAll()] *)
Definition resetAll (bs : buckets) : buckets := ∅.

(** [cleanup()]: drops every bucket not refilled for more than 5 minutes. *)
Definition cleanup (now : Z) (bs : buckets) : buckets :=
  filter (fun kb => ¬ (300000 < now - lastRefill (snd kb))) bs.

(** [getBucketInfo(key, config)]: [None] stands for [{ exists: false }]. *)
Definition getBucketInfo (key : string) (config : IRateLimitConfig)
    (bs : buckets) : option (RateLimitBucket * Z) :=
  match bs !! key with
  | None => None
  | Some b => Some (b, getResetTime b config)
  end.



(** A sequence of [checkLimit] calls on one key, each with its number of
    tokens and its clock reading. *)
Definition checkAll (key : string) (config : IRateLimitConfig)
    (calls : list (Z * Z)) (bs : buckets) : buckets :=
  fold_left (fun bs c => snd (checkLimit key config (fst c) (snd c) bs)) calls bs.
End RateLimiter.

(* ====================================================================== *)
(** ** src/resilience/RetryManager.ts *)
(* ====================================================================== *)

(** The operation is a closure that may behave differently each time it is
    called: [operation n] is the outcome of its call in attempt [n], [inl]
    a resolved value and [inr] a thrown error.  An execution is described
    by what it did, oldest first: the sleeps and the operation calls. *)

Module RetryManager.

Inductive RetryStrategy : Type :=
  | exponential
  | fixed
  | linear.

(** [interface IRetryConfig]; [retryOn] is never read by the manager. *)
Record IRetryConfig : Type := {
  max : Z;
  strategy : RetryStrategy;
  backoffMs : option Z;
}.

Inductive action : Type :=
  | Sleep (ms : Z)
  | Invoke (attempt : Z).

(** [calculateDelay(config, attempt)]; [config.backoffMs || 1000] takes
    1000 for a missing and for a zero [backoffMs]. *)
Definition calculateDelay (config : IRetryConfig) (attempt : Z) : Z :=
  let baseDelay :=
    match backoffMs config with
    | Some b => if b =? 0 then 1000 else b
    | None => 1000
    end in
  match strategy config with
  | exponential => baseDelay * 2 ^ (attempt - 1)
  | linear => baseDelay * attempt
  | fixed => baseDelay
  end.

Section Execute.

Context {T E : Type}.
Variable operation : Z -> T + E.
Variable config : IRetryConfig.
Variable shouldRetry : option (E -> bool).

(** [shouldRetry && !shouldRetry(error)] *)
Definition abortsOn (error : E) : bool :=
  match shouldRetry with
  | Some f => negb (f error)
  | None => false
  end.

(** The [for] loop of [execute] from [attempt] on, with [lastError] and the
    actions done so far; [fuel] bounds the iterations left.  The result is
    the returned value or the thrown [lastError] ([None] is [undefined]),
    the actions, and the last value stored in [retryAttempts]. *)
Fixpoint attempts (fuel : nat) (attempt : Z) (lastError : option E)
    (done : list action) (stored : Z) : (T + option E) * list action * Z :=
  match fuel with
  | O => (inr lastError, done, stored)
  | S fuel =>
      if attempt <=? max config then
        let done := if 0 <? attempt
                    then done ++ [Sleep (calculateDelay config attempt)]
                    else done in
        let done := done ++ [Invoke attempt] in
        match operation attempt with
        | inl result => (inl result, done, stored)
        | inr error =>
            if abortsOn error then (inr (Some error), done, attempt + 1)
            else if max config <=? attempt then (inr (Some error), done, attempt + 1)
            else attempts fuel (attempt + 1) (Some error) done (attempt + 1)
        end
      else (inr lastError, done, stored)
  end.

(** [execute(operation, config, shouldRetry, operationId)] with the
    effective [id]: the outcome, the actions, and the [retryAttempts] map,
    from which [id] is deleted on both exits. *)
Definition execute (id : string) (retryAttempts : gmap string Z)
    : (T + option E) * list action * gmap string Z :=
  let '(outcome, done, _) :=
    attempts (Z.to_nat (max config + 1)) 0 None [] 0 in
  (outcome, done, delete id (<[id := 0]> retryAttempts)).

End Execute.

(** What the policy prescribes for [n] consecutive attempts starting with
    attempt [a]: every attempt but attempt 0 is preceded by its delay. *)
Fixpoint scheduleFrom (config : IRetryConfig) (a : Z) (n : nat) : list action :=
  match n with
  | O => []
  | S n' =>
      (if 0 <? a then [Sleep (calculateDelay config a)] else [])
        ++ Invoke a :: scheduleFrom config (a + 1) n'
  end.

(** The operation calls among the actions. *)
Definition invocations (done : list action) : list Z :=
  omap (fun a => match a with Invoke n => Some n | Sleep _ => None end) done.


(** [getRetryCount], [isRetrying], [cancelRetry], [getActiveRetries] *)
Definition getRetryCount (operationId : string) (retryAttempts : gmap string Z) : option Z :=
  retryAttempts !! operationId.

Definition isRetrying (operationId : string) (retryAttempts : gmap string Z) : bool :=
  bool_decide (is_Some (retryAttempts !! operationId)).

Definition cancelRetry (operationId : string) (retryAttempts : gmap string Z)
    : bool * gmap string Z :=
  (bool_decide (is_Some (retryAttempts !! operationId)), delete operationId retryAttempts).

(** [createConfig(maxRetries = 3, strategy = 'exponential', baseDelayMs = 1000)] *)
Definition createConfig (maxRetries : option Z) (strategy : option RetryStrategy)
    (baseDelayMs : option Z) : IRetryConfig :=
  {| max := default 3 maxRetries;
     strategy := default exponential strategy;
     backoffMs := Some (default 1000 baseDelayMs) |}.

End RetryManager.

(* ====================================================================== *)
(** ** State documents and the lodash calls of src/state/StateStore.ts *)
(* ====================================================================== *)

(** The state is [any]: a JavaScript value.  Objects keep their own
    properties in insertion order; an array has its elements and, as every
    JavaScript array, may carry named properties besides them. *)

Module Json.

Unset Elimination Schemes.
Inductive json : Type :=
  | JUndefined
  | JNull
  | JBool (b : bool)
  | JNum (n : Z)
  | JStr (s : string)
  | JArr (elems : list json) (props : list (string * json))
  | JObj (fields : list (string * json)).
Set Elimination Schemes.

(** Induction over documents, with the property available for every
    element and every property value. *)
Section Induction.

Variable P : json -> Prop.
Hypothesis Hundefined : P JUndefined.
Hypothesis Hnull : P JNull.
Hypothesis Hbool : forall b, P (JBool b).
Hypothesis Hnum : forall n, P (JNum n).
Hypothesis Hstr : forall s, P (JStr s).
Hypothesis Harr : forall elems props,
  Forall P elems -> Forall (fun kv => P (snd kv)) props -> P (JArr elems props).
Hypothesis Hobj : forall fields,
  Forall (fun kv => P (snd kv)) fields -> P (JObj fields).

Fixpoint json_ind (v : json) : P v :=
  match v with
  | JUndefined => Hundefined
  | JNull => Hnull
  | JBool b => Hbool b
  | JNum n => Hnum n
  | JStr s => Hstr s
  | JArr elems props =>
      Harr elems props
        ((fix all (l : list json) : Forall P l :=
            match l with
            | [] => List.Forall_nil P
            | x :: l' => List.Forall_cons P x l' (json_ind x) (all l')
            end) elems)
        ((fix all (l : list (string * json)) : Forall (fun kv => P (snd kv)) l :=
            match l with
            | [] => List.Forall_nil _
            | (k, x) :: l' => List.Forall_cons _ (k, x) l' (json_ind x) (all l')
            end) props)
  | JObj fields =>
      Hobj fields
        ((fix all (l : list (string * json)) : Forall (fun kv => P (snd kv)) l :=
            match l with
            | [] => List.Forall_nil _
            | (k, x) :: l' => List.Forall_cons _ (k, x) l' (json_ind x) (all l')
            end) fields)
  end.

End Induction.

(** [typeof v === 'object' && v !== null]: lodash's [isObject] on documents. *)
Definition isObject (v : json) : bool :=
  match v with
  | JArr _ _ | JObj _ => true
  | _ => false
  end.

(** JavaScript truthiness: [undefined], [null], [false], [0] and the empty
    string are falsy. *)
Definition truthy (v : json) : bool :=
  match v with
  | JUndefined | JNull => false
  | JBool b => b
  | JNum n => negb (n =? 0)
  | JStr s => negb (String.eqb s EmptyString)
  | JArr _ _ | JObj _ => true
  end.

(** [_.cloneDeep]: a fresh copy of the whole tree.  For an array lodash
    copies the elements only, so named properties of arrays are not part
    of the copy. *)
Fixpoint cloneDeep (v : json) : json :=
  match v with
  | JArr elems _ => JArr (map cloneDeep elems) []
  | JObj fields =>
      JObj (map (fun kv => match kv with (k, x) => (k, cloneDeep x) end) fields)
  | _ => v
  end.


(** Own properties of an object, as an insertion-ordered association list. *)
Fixpoint assoc_get (k : string) (l : list (string * json)) : option json :=
  match l with
  | [] => None
  | (k', v) :: rest => if String.eqb k k' then Some v else assoc_get k rest
  end.

(** [o[k] = v]: an existing property keeps its place, a new one goes last. *)
Fixpoint assoc_set (k : string) (v : json) (l : list (string * json))
    : list (string * json) :=
  match l with
  | [] => [(k, v)]
  | (k', v') :: rest =>
      if String.eqb k k' then (k', v) :: rest else (k', v') :: assoc_set k v rest
  end.

(** [delete o[k]] *)
Fixpoint assoc_del (k : string) (l : list (string * json)) : list (string * json) :=
  match l with
  | [] => []
  | (k', v') :: rest =>
      if String.eqb k k' then rest else (k', v') :: assoc_del k rest
  end.

End Json.

(** lodash is an external package.  [set], [get] and [unset] are modelled
    after its documented behaviour on own properties of objects and arrays,
    for property paths written with dots ([a.b.c]); bracket syntax is not
    part of the model. *)

Module Lodash.
Import Json.

(** Splits a path at its dots; [cur] is the key read so far. *)
Fixpoint splitDots (s : string) (cur : string) : list string :=
  match s with
  | EmptyString => [cur]
  | String c rest =>
      if Ascii.eqb c "."%char then cur :: splitDots rest EmptyString
      else splitDots rest (cur +:+ String c EmptyString)
  end.

Fixpoint hasDot (s : string) : bool :=
  match s with
  | EmptyString => false
  | String c rest => Ascii.eqb c "."%char || hasDot rest
  end.

(** Decimal value of a string of digits. *)
Fixpoint digits (s : string) (acc : nat) : option nat :=
  match s with
  | EmptyString => Some acc
  | String c rest =>
      let d := Ascii.nat_of_ascii c in
      if (48 <=? d)%nat && (d <=? 57)%nat then digits rest (10 * acc + (d - 48))%nat
      else None
  end.

(** [isIndex]: the key is [0] or a decimal number without leading zero. *)
Definition isIndex (k : string) : option nat :=
  match k with
  | EmptyString => None
  | String c rest =>
      if Ascii.eqb c "0"%char
      then match rest with EmptyString => Some O | _ => None end
      else digits k O
  end.

(** Own property [o[k]]; [undefined] when there is none. *)
Definition getProp (o : json) (k : string) : json :=
  match o with
  | JObj fields => default JUndefined (assoc_get k fields)
  | JArr elems props =>
      match isIndex k with
      | Some i => default JUndefined (elems !! i)
      | None => default JUndefined (assoc_get k props)
      end
  | _ => JUndefined
  end.

(** [k in o], for own properties. *)
Definition hasProp (o : json) (k : string) : bool :=
  match o with
  | JObj fields => bool_decide (is_Some (assoc_get k fields))
  | JArr elems props =>
      match isIndex k with
      | Some i => bool_decide (i < length elems)%nat
      | None => bool_decide (is_Some (assoc_get k props))
      end
  | _ => false
  end.

(** [o[k] = v] on an object or an array; an index past the end extends
    the array, leaving the elements between undefined. *)
Definition assign (o : json) (k : string) (v : json) : json :=
  match o with
  | JObj fields => JObj (assoc_set k v fields)
  | JArr elems props =>
      match isIndex k with
      | Some i =>
          if bool_decide (i < length elems)%nat then JArr (<[i := v]> elems) props
          else JArr (elems ++ replicate (i - length elems) JUndefined ++ [v]) props
      | None => JArr elems (assoc_set k v props)
      end
  | _ => o
  end.

(** [delete o[k]]; deleting an element leaves a hole in the array. *)
Definition remove (o : json) (k : string) : json :=
  match o with
  | JObj fields => JObj (assoc_del k fields)
  | JArr elems props =>
      match isIndex k with
      | Some i => JArr (<[i := JUndefined]> elems) props
      | None => JArr elems (assoc_del k props)
      end
  | _ => o
  end.

(** [castPath(path, object)]: a path that names a property of the object,
    or has no dot, is one key; otherwise it is split. *)
Definition castPath (path : string) (o : json) : list string :=
  if hasDot path && negb (hasProp o path) then splitDots path EmptyString
  else [path].

Definition unsafeKey (k : string) : bool :=
  String.eqb k "__proto__" || String.eqb k "constructor" || String.eqb k "prototype".

(** [baseSet]: walks the keys; a value on the way that is not an object is
    replaced by a new array (before an index) or a new object. *)
Fixpoint baseSet (keys : list string) (value : json) (nested : json) : json :=
  match keys with
  | [] => nested
  | k :: rest =>
      if unsafeKey k then nested
      else
        match rest with
        | [] => assign nested k value
        | next :: _ =>
            let objValue := getProp nested k in
            let child :=
              if isObject objValue then objValue
              else match isIndex next with
                   | Some _ => JArr [] []
                   | None => JObj []
                   end in
            assign nested k (baseSet rest value child)
        end
  end.

(** [_.set(object, path, value)]: the object after the call. *)
Definition set (o : json) (path : string) (value : json) : json :=
  if isObject o then baseSet (castPath path o) value o else o.

(** [baseGet]: [undefined] as soon as the walk meets [null] or [undefined]. *)
Fixpoint baseGet (keys : list string) (o : json) : json :=
  match keys with
  | [] => o
  | k :: rest =>
      match o with
      | JUndefined | JNull => JUndefined
      | _ => baseGet rest (getProp o k)
      end
  end.

(** [_.get(object, path)] *)
Definition get (o : json) (path : string) : json :=
  baseGet (castPath path o) o.

(** [baseUnset]: deletes the last key in its parent, when the parent exists. *)
Fixpoint baseUnset (keys : list string) (o : json) : json :=
  match keys with
  | [] => o
  | [k] => remove o k
  | k :: rest =>
      let child := getProp o k in
      if isObject child then assign o k (baseUnset rest child) else o
  end.

(** [_.unset(object, path)]: the object after the call. *)
Definition unset (o : json) (path : string) : json :=
  if isObject o then baseUnset (castPath path o) o else o.

(** No array among the values that [keys] lead through, from [o] on. *)
Fixpoint noArrayOn (keys : list string) (o : json) : bool :=
  match o with
  | JArr _ _ => false
  | _ =>
      match keys with
      | [] => true
      | k :: rest => noArrayOn rest (getProp o k)
      end
  end.

End Lodash.

(* ====================================================================== *)
(** ** src/state/StateStore.ts *)
(* ====================================================================== *)

(** Persistence is off ([enablePersistence: false], the default), so
    [persistState] returns at once.  [snapshots] is a [Map]: it keeps its
    entries in insertion order, and [set] on a present key keeps the place
    of the entry.  A history entry records the operations and paths of its
    patches; the patch values it refers to are objects shared with the
    caller and with the live state, and are not part of the model. *)

Module StateStore.
Import Json.

Inductive PatchOp : Type :=
  | add
  | replace
  | remove.

(** [interface IStatePatch]; a missing [value] is [undefined]. *)
Record IStatePatch : Type := {
  op : PatchOp;
  path : string;
  value : json;
}.

(** [interface IStateEvent]; [restoredFrom] is [metadata.snapshotId] of a
    restore event. *)
Record IStateEvent : Type := {
  event_id : string;
  event_timestamp : Z;
  event_patches : list (PatchOp * string);
  restoredFrom : option string;
}.

(** [interface StateSnapshot] *)
Record StateSnapshot : Type := {
  snap_id : string;
  snap_state : json;
  snap_timestamp : Z;
}.

(** [interface StateStoreConfig], the two limits. *)
Record StateStoreConfig : Type := {
  maxHistorySize : Z;
  maxSnapshotSize : Z;
}.

Definition defaultConfig : StateStoreConfig :=
  {| maxHistorySize := 1000; maxSnapshotSize := 50 |}.

Record store : Type := {
  currentState : json;
  history : list IStateEvent;
  snapshots : list (string * StateSnapshot);
  config : StateStoreConfig;
  eventCounter : Z;
}.

(** [new StateStore(initialState, config)] *)
Definition create (initialState : json) (cfg : StateStoreConfig) : store :=
  {| currentState := cloneDeep initialState; history := []; snapshots := [];
     config := cfg; eventCounter := 0 |}.

(** [getCurrentState()] *)
Definition getCurrentState (s : store) : json := cloneDeep (currentState s).

(** [getHistory()] *)
Definition getHistory (s : store) : list IStateEvent := history s.

(** [Map.get], [Map.set] and [Map.delete] on the snapshots. *)
Fixpoint snap_get (id : string) (l : list (string * StateSnapshot)) : option StateSnapshot :=
  match l with
  | [] => None
  | (k, sn) :: rest => if String.eqb id k then Some sn else snap_get id rest
  end.

Fixpoint snap_set (id : string) (sn : StateSnapshot) (l : list (string * StateSnapshot))
    : list (string * StateSnapshot) :=
  match l with
  | [] => [(id, sn)]
  | (k, sn') :: rest =>
      if String.eqb id k then (k, sn) :: rest else (k, sn') :: snap_set id sn rest
  end.

Fixpoint snap_delete (id : string) (l : list (string * StateSnapshot))
    : list (string * StateSnapshot) :=
  match l with
  | [] => []
  | (k, sn') :: rest =>
      if String.eqb id k then rest else (k, sn') :: snap_delete id rest
  end.

(** First entry of the entries sorted by ascending [timestamp] (the sort is
    stable): the earliest inserted among those with the least timestamp. *)
Fixpoint oldestFrom (best : string * Z) (l : list (string * StateSnapshot)) : string :=
  match l with
  | [] => fst best
  | (k, sn) :: rest =>
      if snap_timestamp sn <? snd best then oldestFrom (k, snap_timestamp sn) rest
      else oldestFrom best rest
  end.

Definition oldestSnapshot (l : list (string * StateSnapshot)) : option string :=
  match l with
  | [] => None
  | (k, sn) :: rest => Some (oldestFrom (k, snap_timestamp sn) rest)
  end.

(** [path.replace(/^\$\./, '')] *)
Definition stripRoot (p : string) : string :=
  match p with
  | String c1 (String c2 rest) =>
      if Ascii.eqb c1 "$"%char && Ascii.eqb c2 "."%char then rest else p
  | _ => p
  end.

Definition isRootPath (p : string) : bool :=
  String.eqb p "$" || String.eqb p EmptyString.

(** [addToHistory(event)]: push, then drop the oldest entry when the
    history is longer than [maxHistorySize]. *)
Definition addToHistory (event : IStateEvent) (cfg : StateStoreConfig)
    (h : list IStateEvent) : list IStateEvent :=
  let h := h ++ [event] in
  if maxHistorySize cfg <? Z.of_nat (length h) then tail h else h.

(** [generateEventId()] at clock reading [now], with the counter after
    its increment. *)
Definition generateEventId (now : Z) (counter : Z) : string * Z :=
  ("event_" +:+ pretty now +:+ "_" +:+ pretty (counter + 1), counter + 1).

(** [generateChecksum(data)] throws a [TypeError] when
    [JSON.stringify(data)] is [undefined], whose [length] it reads; among
    documents that is the case for [undefined] itself. *)
Definition generateChecksumThrows (data : json) : bool :=
  match data with
  | JUndefined => true
  | _ => false
  end.

Section WithLodash.

(** [_.set] and [_.unset] as functions from the object before the call to
    the object after it. *)
Variable lodash_set : json -> string -> json -> json.
Variable lodash_unset : json -> string -> json.

(** [setValueAtPath(path, value)] *)
Definition setValueAtPath (p : string) (v : json) (state : json) : json :=
  if isRootPath p then v else lodash_set state (stripRoot p) v.

(** [deleteValueAtPath(path)] *)
Definition deleteValueAtPath (p : string) (state : json) : json :=
  if isRootPath p then JObj [] else lodash_unset state (stripRoot p).

(** [applyPatch(patch)] *)
Definition applyPatch (state : json) (patch : IStatePatch) : json :=
  match op patch with
  | add | replace => setValueAtPath (path patch) (value patch) state
  | remove => deleteValueAtPath (path patch) state
  end.

(** [applyPatches(patches)] throws a [TypeError]: it does when
    [generateChecksum] throws for the state before or after the patches. *)
Definition applyPatchesThrows (patches : list IStatePatch) (s : store) : bool :=
  match patches with
  | [] => false
  | _ =>
      generateChecksumThrows (cloneDeep (currentState s))
      || generateChecksumThrows (fold_left applyPatch patches (currentState s))
  end.

(** [applyPatches(patches)] at clock reading [now]: the store after the
    call, whether it returns or throws.  The checksums are computed after
    the event id is generated and the patches are applied, and before the
    event is logged: a call that throws has changed the state and the
    event counter, and not the history. *)
Definition applyPatches (patches : list IStatePatch) (now : Z) (s : store) : store :=
  match patches with
  | [] => s
  | _ =>
      let previousState := cloneDeep (currentState s) in
      let '(eventId, counter) := generateEventId now (eventCounter s) in
      let state := fold_left applyPatch patches (currentState s) in
      if generateChecksumThrows previousState || generateChecksumThrows state then
        {| currentState := state; history := history s;
           snapshots := snapshots s; config := config s; eventCounter := counter |}
      else
        let stateEvent :=
          {| event_id := eventId; event_timestamp := now;
             event_patches := map (fun p => (op p, path p)) patches;
             restoredFrom := None |} in
        {| currentState := state;
           history := addToHistory stateEvent (config s) (history s);
           snapshots := snapshots s; config := config s; eventCounter := counter |}
  end.


End WithLodash.

(** [createSnapshot(id)] at clock reading [now]. *)
Definition createSnapshot (id : string) (now : Z) (s : store) : store :=
  let snapshot :=
    {| snap_id := id; snap_state := cloneDeep (currentState s);
       snap_timestamp := now |} in
  let snaps := snap_set id snapshot (snapshots s) in
  let snaps :=
    if maxSnapshotSize (config s) <? Z.of_nat (length snaps) then
      match oldestSnapshot snaps with
      | Some oldest => snap_delete oldest snaps
      | None => snaps
      end
    else snaps in
  {| currentState := currentState s; history := history s; snapshots := snaps;
     config := config s; eventCounter := eventCounter s |}.

(** [restoreSnapshot(id)] at clock reading [now]; [None] when it throws
    [Snapshot not found]. *)
Definition restoreSnapshot (id : string) (now : Z) (s : store) : option store :=
  match snap_get id (snapshots s) with
  | None => None
  | Some snapshot =>
      let '(eventId, counter) := generateEventId now (eventCounter s) in
      let restoreEvent :=
        {| event_id := eventId; event_timestamp := now;
           event_patches := [(replace, "$")];
           restoredFrom := Some id |} in
      Some {| currentState := cloneDeep (snap_state snapshot);
              history := addToHistory restoreEvent (config s) (history s);
              snapshots := snapshots s; config := config s;
              eventCounter := counter |}
  end.

(** [getSnapshot(id)] *)
Definition getSnapshot (id : string) (s : store) : option StateSnapshot :=
  snap_get id (snapshots s).

(** [listSnapshots()]: id and timestamp of every snapshot, in map order. *)
Definition listSnapshots (s : store) : list (string * Z) :=
  map (fun e => (snap_id (snd e), snap_timestamp (snd e))) (snapshots s).

(** [deleteSnapshot(id)] *)
Definition deleteSnapshot (id : string) (s : store) : bool * store :=
  (bool_decide (is_Some (snap_get id (snapshots s))),
   {| currentState := currentState s; history := history s;
      snapshots := snap_delete id (snapshots s);
      config := config s; eventCounter := eventCounter s |}).

(** [getEventById(eventId)] *)
Definition getEventById (eventId : string) (s : store) : option IStateEvent :=
  List.find (fun e => String.eqb (event_id e) eventId) (history s).

(** [getEventsByTimeRange(startTime, endTime)] *)
Definition getEventsByTimeRange (startTime endTime : Z) (s : store) : list IStateEvent :=
  List.filter (fun e => (startTime <=? event_timestamp e) && (event_timestamp e <=? endTime))
    (history s).

(** [getEventsByPatchPath(path)] *)
Definition getEventsByPatchPath (p : string) (s : store) : list IStateEvent :=
  List.filter (fun e => existsb (fun q => String.eqb (snd q) p) (event_patches e))
    (history s).

(** [compactHistory(keepLastN = 100)] *)
Definition compactHistory (keepLastN : option Z) (s : store) : store :=
  let keep := default 100 keepLastN in
  let len := Z.of_nat (length (history s)) in
  if len <=? keep then s
  else
    {| currentState := currentState s;
       history := drop (Z.to_nat (len - keep)) (history s);
       snapshots := snapshots s; config := config s;
       eventCounter := eventCounter s |}.

(** [clear()] *)
Definition clear (s : store) : store :=
  {| currentState := JObj []; history := []; snapshots := [];
     config := config s; eventCounter := eventCounter s |}.

(** [importState(stateData)]: the snapshots are inserted one by one under
    their own ids. *)
Definition importState (state : json) (hist : option (list IStateEvent))
    (snaps : option (list StateSnapshot)) (s : store) : store :=
  {| currentState := cloneDeep state;
     history := default (history s) hist;
     snapshots :=
       match snaps with
       | Some l => fold_left (fun m sn => snap_set (snap_id sn) sn m) l []
       | None => snapshots s
       end;
     config := config s; eventCounter := eventCounter s |}.


(** The calls of the public interface that change the store. *)
Inductive command : Type :=
  | ApplyPatches (patches : list IStatePatch) (now : Z)
  | CreateSnapshot (id : string) (now : Z)
  | RestoreSnapshot (id : string) (now : Z)
  | DeleteSnapshot (id : string)
  | CompactHistory (keepLastN : option Z).

Section Commands.

Variable lodash_set : json -> string -> json -> json.
Variable lodash_unset : json -> string -> json.

(** One call; [restoreSnapshot] throws before it changes anything. *)
Definition perform (s : store) (c : command) : store :=
  match c with
  | ApplyPatches patches now => applyPatches lodash_set lodash_unset patches now s
  | CreateSnapshot id now => createSnapshot id now s
  | RestoreSnapshot id now => default s (restoreSnapshot id now s)
  | DeleteSnapshot id => snd (deleteSnapshot id s)
  | CompactHistory keepLastN => compactHistory keepLastN s
  end.

Definition performAll (cs : list command) (s : store) : store :=
  fold_left perform cs s.

End Commands.

End StateStore.

(* ====================================================================== *)
(** ** src/core/registry/ToolRegistry.ts *)
(* ====================================================================== *)

(** The registry keeps the tools and two indices, from category and from
    tag to the ids of the tools that carry them.  The order in which
    [Map] and [Set] enumerate their entries is not part of the model. *)

Module ToolRegistry.

(** [interface ITool], the fields the registry reads: [metadata?.category]
    and [metadata?.tags]. *)
Record ITool : Type := {
  id : string;
  category : option string;
  tags : list string;
}.

Record registry : Type := {
  tools : gmap string ITool;
  categories : gmap string (gset string);
  tagIndex : gmap string (gset string);
}.

Definition empty : registry :=
  {| tools := ∅; categories := ∅; tagIndex := ∅ |}.

(** [tool.metadata?.category || 'general'] *)
Definition categoryOf (tool : ITool) : string :=
  match category tool with
  | Some c => if String.eqb c EmptyString then "general" else c
  | None => "general"
  end.

(** [if (!index.has(key)) index.set(key, new Set()); index.get(key).add(id)] *)
Definition addToIndex (toolId : string) (index : gmap string (gset string))
    (key : string) : gmap string (gset string) :=
  <[key := {[toolId]} ∪ default ∅ (index !! key)]> index.

(** [index.get(key)?.delete(id); if (index.get(key)?.size === 0)
    index.delete(key)] *)
Definition removeFromIndex (toolId : string) (index : gmap string (gset string))
    (key : string) : gmap string (gset string) :=
  match index !! key with
  | None => index
  | Some ids =>
      if decide (ids ∖ {[toolId]} = ∅) then delete key index
      else <[key := ids ∖ {[toolId]}]> index
  end.

(** [register(tool)]; [None] when it throws [DUPLICATE_TOOL_ID]. *)
Definition register (tool : ITool) (r : registry) : option registry :=
  match tools r !! id tool with
  | Some _ => None
  | None =>
      Some {| tools := <[id tool := tool]> (tools r);
              categories := addToIndex (id tool) (categories r) (categoryOf tool);
              tagIndex := fold_left (addToIndex (id tool)) (tags tool) (tagIndex r) |}
  end.

(** [unregister(toolId)] *)
Definition unregister (toolId : string) (r : registry) : bool * registry :=
  match tools r !! toolId with
  | None => (false, r)
  | Some tool =>
      (true,
       {| tools := delete toolId (tools r);
          categories := removeFromIndex toolId (categories r) (categoryOf tool);
          tagIndex := fold_left (removeFromIndex toolId) (tags tool) (tagIndex r) |})
  end.

(** [get(toolId)], [exists(toolId)], [size()] *)
Definition get (toolId : string) (r : registry) : option ITool := tools r !! toolId.

Definition exists_ (toolId : string) (r : registry) : bool :=
  bool_decide (is_Some (tools r !! toolId)).

Definition size (r : registry) : nat := base.size (tools r).

(** The ids that [getByCategory(category)] and [getByTag(tag)] look up in
    [tools]. *)
Definition idsByCategory (c : string) (r : registry) : gset string :=
  default ∅ (categories r !! c).

Definition idsByTag (tag : string) (r : registry) : gset string :=
  default ∅ (tagIndex r !! tag).

(** The calls that change the registry; a [register] that throws leaves
    it as it is. *)
Inductive call : Type :=
  | Register (tool : ITool)
  | Unregister (toolId : string).

Definition perform (r : registry) (c : call) : registry :=
  match c with
  | Register tool => default r (register tool r)
  | Unregister toolId => snd (unregister toolId r)
  end.

Definition performAll (cs : list call) (r : registry) : registry :=
  fold_left perform cs r.


(** The indices agree with the tools: a tool is stored under its own id,
    an id is in the index of a category exactly when its tool has that
    category, and in the index of a tag exactly when its tool has that
    tag. *)
Definition consistent (r : registry) : Prop :=
  (forall i tool, tools r !! i = Some tool -> id tool = i) /\
  (forall i c, i ∈ idsByCategory c r <->
     exists tool, tools r !! i = Some tool /\ categoryOf tool = c) /\
  (forall i tag, i ∈ idsByTag tag r <->
     exists tool, tools r !! i = Some tool /\ tag ∈ tags tool).

End ToolRegistry.

(* ====================================================================== *)
(** ** src/core/base/ToolExecutor.base.ts, src/executors/ToolOrchestrator.ts *)
(* ====================================================================== *)

(** A promise either resolves or rejects: [inl] is the value returned,
    [inr] the error thrown.  The three executors share
    [BaseToolExecutor.execute]; what differs between them, [validateTool]
    and [executeInternal], is a parameter.  [executeInternal i tool ctx] is
    the outcome for the tool at position [i] of the list being run.
    [executionTime] of a result is a difference of clock readings and is
    left out, as is everything else of a context but its [state] and
    [previousResults]. *)

Module ToolOrchestrator.
Import Json.

Inductive ToolType : Type :=
  | server
  | client
  | system
  | unknownType.

#[export] Instance ToolType_eq_dec : EqDecision ToolType.
Proof. solve_decision. Defined.

(** [interface ITool], the fields the orchestrator reads. *)
Record ITool : Type := {
  tool_id : string;
  tool_type : ToolType;
}.

Inductive Error : Type :=
  | ToolNotFound (toolId : string)
  | UnknownToolType
  | ExecutorCannotHandle (t : ToolType)
  | ValidationFailed
  | Thrown (error : json).

(** [interface IToolResult] *)
Record IToolResult : Type := {
  success : bool;
  data : json;
  error : option Error;
}.

(** [interface IToolExecutionContext] *)
Record Context : Type := {
  state : json;
  previousResults : json;
}.

(** [{ success: false, error, executionTime }] *)
Definition errorResult (e : Error) : IToolResult :=
  {| success := false; data := JUndefined; error := Some e |}.

(** Own enumerable properties copied by an object spread [{ ...v }];
    arrays are dense here. *)
Definition spreadProps (v : json) : list (string * json) :=
  match v with
  | JObj fields => fields
  | JArr elems props => imap (fun i x => (pretty i, x)) elems ++ props
  | JStr s =>
      imap (fun i c => (pretty i, JStr (String c EmptyString))) (String.list_ascii_of_string s)
  | _ => []
  end.

(** [{ ...a, ...b }] *)
Definition objectSpread (a b : json) : json :=
  JObj (fold_left (fun acc kv => assoc_set (fst kv) (snd kv) acc)
          (spreadProps b) (spreadProps a)).

Section Orchestrator.

Variable registry : gmap string ITool.
(** [_enabled] of the server, client and system executor. *)
Variable enabled : ToolType -> bool.
Variable validateTool : ITool -> bool.
Variable executeInternal : nat -> ITool -> Context -> IToolResult + Error.

(** [BaseToolExecutor.execute(tool, context)] of the executor whose
    [supportedType] is [supported]. *)
Definition execute (supported : ToolType) (i : nat) (tool : ITool) (ctx : Context)
    : IToolResult + Error :=
  let canExecute :=
    enabled supported && bool_decide (tool_type tool = supported) in
  if negb canExecute then inr (ExecutorCannotHandle (tool_type tool))
  else if negb (validateTool tool) then inl (errorResult ValidationFailed)
  else
    match executeInternal i tool ctx with
    | inl result => inl result
    | inr e => inl (errorResult e)
    end.

(** [executeTool(toolId, context)] *)
Definition executeTool (i : nat) (toolId : string) (ctx : Context)
    : IToolResult + Error :=
  match registry !! toolId with
  | None => inr (ToolNotFound toolId)
  | Some tool =>
      match tool_type tool with
      | server => execute server i tool ctx
      | client => execute client i tool ctx
      | system => execute system i tool ctx
      | unknownType => inr UnknownToolType
      end
  end.

(** The context for the next tool of a sequence. *)
Definition nextContext (ctx : Context) (result : IToolResult) : Context :=
  if success result && truthy (data result) then
    {| state := objectSpread (state ctx) (data result);
       previousResults := data result |}
  else ctx.

(** The loop of [executeSequence] from position [i] on: the results
    pushed, and the calls of [executeTool] made, each with its context. *)
Fixpoint sequenceFrom (continueOnError : bool) (i : nat) (toolIds : list string)
    (ctx : Context) : list IToolResult * list (string * Context) :=
  match toolIds with
  | [] => ([], [])
  | toolId :: rest =>
      match executeTool i toolId ctx with
      | inl result =>
          let '(results, calls) :=
            sequenceFrom continueOnError (S i) rest (nextContext ctx result) in
          (result :: results, (toolId, ctx) :: calls)
      | inr e =>
          if continueOnError then
            let '(results, calls) := sequenceFrom continueOnError (S i) rest ctx in
            (errorResult e :: results, (toolId, ctx) :: calls)
          else ([errorResult e], [(toolId, ctx)])
      end
  end.

(** [executeSequence(toolIds, initialContext, options)]; a missing
    [options] or [continueOnError] is [false]. *)
Definition executeSequence (toolIds : list string) (initialContext : Context)
    (continueOnError : bool) : list IToolResult :=
  fst (sequenceFrom continueOnError O toolIds initialContext).

(** The [executeTool] calls [executeSequence] makes, in order. *)
Definition sequenceCalls (toolIds : list string) (initialContext : Context)
    (continueOnError : bool) : list (string * Context) :=
  snd (sequenceFrom continueOnError O toolIds initialContext).

(** [executeParallel(toolIds, context)]: [results[index]] is the outcome
    for [toolIds[index]], whatever the batch size. *)
Definition executeParallel (toolIds : list string) (ctx : Context) : list IToolResult :=
  imap (fun i toolId =>
          match executeTool i toolId ctx with
          | inl result => result
          | inr e => errorResult e
          end) toolIds.

(** [getValueByPath(obj, path)]: [path.split('.')] then [current?.[key]]. *)
Definition getValueByPath (obj : json) (p : string) : json :=
  fold_left (fun current key =>
               match current with
               | JUndefined | JNull => JUndefined
               | _ => Lodash.getProp current key
               end) (Lodash.splitDots p EmptyString) obj.

(** [evaluateCondition(condition, state)] *)
Definition evaluateCondition (condition : string) (st : json) : bool :=
  match condition with
  | String c1 (String c2 rest) =>
      if Ascii.eqb c1 "$"%char && Ascii.eqb c2 "."%char then
        match getValueByPath st rest with
        | JUndefined => false
        | _ => true
        end
      else true
  | _ => true
  end.

(** [executeConditional(conditions, context)] from position [i] on. *)
Fixpoint conditionalFrom (i : nat) (conditions : list (string * string))
    (ctx : Context) : list IToolResult :=
  match conditions with
  | [] => []
  | (condition, toolId) :: rest =>
      if evaluateCondition condition (state ctx) then
        match executeTool i toolId ctx with
        | inl result => result :: conditionalFrom (S i) rest ctx
        | inr e => errorResult e :: conditionalFrom (S i) rest ctx
        end
      else conditionalFrom (S i) rest ctx
  end.

Definition executeConditional (conditions : list (string * string)) (ctx : Context)
    : list IToolResult :=
  conditionalFrom O conditions ctx.

(** A tool that [executeTool] can run: registered, of a known type, and
    with its executor enabled. *)
Definition runnable (toolId : string) : Prop :=
  exists tool : ITool,
    registry !! toolId = Some tool /\
    tool_type tool <> unknownType /\
    enabled (tool_type tool) = true.

End Orchestrator.

End ToolOrchestrator.

(* ====================================================================== *)
(** ** src/resilience/CacheManager.ts *)
(* ====================================================================== *)

(** The memory tier is a [node-cache] instance, an external package,
    created with [deleteOnExpire: true] and [useClones: false].  It is
    modelled after the package's documented behaviour: [set] stores the
    value with the expiry time [now + ttl * 1000] ([0] for a [ttl] of [0]:
    no expiry); [get] and [has] delete an entry whose expiry time is not
    [0] and lies before [now], and then miss.  The two browser tiers keep
    one [CacheEntry] per key in [localStorage] and [sessionStorage], under
    the key with the tier's prefix; [hasWindow] says whether [window]
    exists.  Storage quota errors are not modelled. *)

Module CacheManager.
Import Json.

Inductive CacheStrategy : Type :=
  | memory
  | localStorage
  | sessionStorage.

(** [interface CacheEntry] *)
Record CacheEntry : Type := {
  entry_value : json;
  ttl : Z;
  createdAt : Z;
  accessCount : Z;
  lastAccessed : Z;
}.

Record cache : Type := {
  (** [this.memoryCache]: value and expiry time of every key *)
  memoryCache : gmap string (json * Z);
  (** [window.localStorage] and [window.sessionStorage] *)
  localItems : gmap string CacheEntry;
  sessionItems : gmap string CacheEntry;
  hasWindow : bool;
}.

Definition localStoragePrefix : string := "halo_cache_".
Definition sessionStoragePrefix : string := "halo_session_cache_".

(** [JSON.parse(JSON.stringify(v))] for a value inside an entry: named
    properties of arrays and properties holding [undefined] are dropped,
    [undefined] elements of arrays become [null]. *)
Fixpoint jsonRoundTrip (v : json) : json :=
  match v with
  | JArr elems _ =>
      JArr (map (fun x => match x with
                          | JUndefined => JNull
                          | _ => jsonRoundTrip x
                          end) elems) []
  | JObj fields =>
      JObj (flat_map (fun kv => match kv with
                                | (_, JUndefined) => []
                                | (k, x) => [(k, jsonRoundTrip x)]
                                end) fields)
  | _ => v
  end.

(** [memoryCache.get(key)] at clock reading [now]: [undefined] on a miss. *)
Definition nodeCache_get (key : string) (now : Z) (m : gmap string (json * Z))
    : json * gmap string (json * Z) :=
  match m !! key with
  | None => (JUndefined, m)
  | Some (v, t) =>
      if negb (t =? 0) && (t <? now) then (JUndefined, delete key m)
      else (v, m)
  end.

(** [memoryCache.set(key, value, ttl)] at clock reading [now]. *)
Definition nodeCache_set (key : string) (v : json) (ttlSeconds : Z) (now : Z)
    (m : gmap string (json * Z)) : gmap string (json * Z) :=
  <[key := (v, if ttlSeconds =? 0 then 0 else now + ttlSeconds * 1000)]> m.

(** [memoryCache.has(key)] at clock reading [now]. *)
Definition nodeCache_has (key : string) (now : Z) (m : gmap string (json * Z))
    : bool * gmap string (json * Z) :=
  match m !! key with
  | None => (false, m)
  | Some (v, t) =>
      if negb (t =? 0) && (t <? now) then (false, delete key m)
      else (true, m)
  end.

Definition with_memory (m : gmap string (json * Z)) (c : cache) : cache :=
  {| memoryCache := m; localItems := localItems c; sessionItems := sessionItems c;
     hasWindow := hasWindow c |}.

Definition with_local (l : gmap string CacheEntry) (c : cache) : cache :=
  {| memoryCache := memoryCache c; localItems := l; sessionItems := sessionItems c;
     hasWindow := hasWindow c |}.

Definition with_session (l : gmap string CacheEntry) (c : cache) : cache :=
  {| memoryCache := memoryCache c; localItems := localItems c; sessionItems := l;
     hasWindow := hasWindow c |}.

(** [getFromLocalStorage(key)]; the result [null] is [JNull]. *)
Definition getFromLocalStorage (key : string) (now : Z) (c : cache) : json * cache :=
  if negb (hasWindow c) then (JNull, c)
  else
    match localItems c !! (localStoragePrefix +:+ key) with
    | None => (JNull, c)
    | Some entry =>
        if createdAt entry + ttl entry * 1000 <? now then
          (JNull, with_local (delete (localStoragePrefix +:+ key) (localItems c)) c)
        else
          let entry' :=
            {| entry_value := entry_value entry; ttl := ttl entry;
               createdAt := createdAt entry; accessCount := accessCount entry + 1;
               lastAccessed := now |} in
          (entry_value entry,
           with_local (<[localStoragePrefix +:+ key := entry']> (localItems c)) c)
    end.

(** [getFromSessionStorage(key)] *)
Definition getFromSessionStorage (key : string) (now : Z) (c : cache) : json * cache :=
  if negb (hasWindow c) then (JNull, c)
  else
    match sessionItems c !! (sessionStoragePrefix +:+ key) with
    | None => (JNull, c)
    | Some entry =>
        if createdAt entry + ttl entry * 1000 <? now then
          (JNull, with_session (delete (sessionStoragePrefix +:+ key) (sessionItems c)) c)
        else (entry_value entry, c)
    end.

(** The entry that [setToLocalStorage] and [setToSessionStorage] store,
    as [JSON.parse] reads it back. *)
Definition newEntry (v : json) (ttlSeconds : Z) (now : Z) : CacheEntry :=
  {| entry_value := jsonRoundTrip v; ttl := ttlSeconds; createdAt := now;
     accessCount := 0; lastAccessed := now |}.

(** [get(key, strategy)] at clock reading [now]: [memoryCache.get(key) ||
    null] in the memory tier.  The result [JNull] is a miss. *)
Definition get (key : string) (strategy : CacheStrategy) (now : Z) (c : cache)
    : json * cache :=
  match strategy with
  | memory =>
      let '(v, m) := nodeCache_get key now (memoryCache c) in
      (if truthy v then v else JNull, with_memory m c)
  | localStorage => getFromLocalStorage key now c
  | sessionStorage => getFromSessionStorage key now c
  end.

(** [set(key, value, ttlSeconds, strategy)] at clock reading [now]. *)
Definition set (key : string) (v : json) (ttlSeconds : Z) (strategy : CacheStrategy)
    (now : Z) (c : cache) : bool * cache :=
  match strategy with
  | memory => (true, with_memory (nodeCache_set key v ttlSeconds now (memoryCache c)) c)
  | localStorage =>
      if negb (hasWindow c) then (false, c)
      else (true, with_local (<[localStoragePrefix +:+ key := newEntry v ttlSeconds now]>
                                (localItems c)) c)
  | sessionStorage =>
      if negb (hasWindow c) then (false, c)
      else (true, with_session (<[sessionStoragePrefix +:+ key := newEntry v ttlSeconds now]>
                                  (sessionItems c)) c)
  end.

(** [delete(key, strategy)] *)
Definition delete_key (key : string) (strategy : CacheStrategy) (c : cache) : bool * cache :=
  match strategy with
  | memory =>
      (bool_decide (is_Some (memoryCache c !! key)), with_memory (delete key (memoryCache c)) c)
  | localStorage =>
      if negb (hasWindow c) then (false, c)
      else (true, with_local (delete (localStoragePrefix +:+ key) (localItems c)) c)
  | sessionStorage =>
      if negb (hasWindow c) then (false, c)
      else (true, with_session (delete (sessionStoragePrefix +:+ key) (sessionItems c)) c)
  end.

(** [has(key, strategy)] at clock reading [now]. *)
Definition has (key : string) (strategy : CacheStrategy) (now : Z) (c : cache)
    : bool * cache :=
  match strategy with
  | memory =>
      let '(b, m) := nodeCache_has key now (memoryCache c) in (b, with_memory m c)
  | localStorage =>
      (hasWindow c && bool_decide (is_Some (localItems c !! (localStoragePrefix +:+ key))), c)
  | sessionStorage =>
      (hasWindow c && bool_decide (is_Some (sessionItems c !! (sessionStoragePrefix +:+ key))), c)
  end.

(** [createKey(namespace, ...parts)]: [[namespace, ...parts].join(':')] *)
Definition createKey (namespace : string) (parts : list string) : string :=
  fold_left (fun acc p => acc +:+ ":" +:+ p) parts namespace.


(** Whether a tier holds an entry under the key, expired or not. *)
Definition stored (key : string) (strategy : CacheStrategy) (c : cache) : bool :=
  match strategy with
  | memory => bool_decide (is_Some (memoryCache c !! key))
  | localStorage => bool_decide (is_Some (localItems c !! (localStoragePrefix +:+ key)))
  | sessionStorage =>
      bool_decide (is_Some (sessionItems c !! (sessionStoragePrefix +:+ key)))
  end.

(** Values that [JSON.stringify] and [JSON.parse] give back unchanged:
    no [undefined] anywhere and no named properties on arrays. *)
Fixpoint jsonSafe (v : json) : bool :=
  match v with
  | JUndefined => false
  | JArr elems props =>
      forallb jsonSafe elems && match props with [] => true | _ => false end
  | JObj fields => forallb (fun kv => match kv with (_, x) => jsonSafe x end) fields
  | _ => true
  end.

End CacheManager.

(* ====================================================================== *)
(** * Properties *)
(* ====================================================================== *)

(** ** Circuit breaker *)

Module CircuitBreakerProps.
Import CircuitBreaker.

(** What [getStats] reads after a write under the same key. *)
Lemma getStats_insert (id : string) (s : CircuitBreakerStats) (cs : circuits) :
  getStats id (<[id := s]> cs) = (s, <[id := s]> cs).
Proof. unfold getStats. by rewrite lookup_insert_eq. Qed.

Lemma getStats_snd_insert (id : string) (s : CircuitBreakerStats) (cs : circuits) :
  <[id := s]> (snd (getStats id cs)) = <[id := s]> cs.
Proof.
  unfold getStats. destruct (cs !! id); simpl; [done|].
  by rewrite insert_insert_eq.
Qed.

(** The record of a circuit after [recordSuccess]. *)
Lemma recordSuccess_stats (id : string) (now : Z) (cs : circuits) :
  fst (getStats id (recordSuccess id now cs)) =
    let s := fst (getStats id cs) in
    {| failures := match state s with closed => failures s | _ => 0 end;
       successes := successes s + 1;
       lastFailureTime := lastFailureTime s;
       lastSuccessTime := now;
       state := closed |}.
Proof.
  unfold recordSuccess, transitionToClosed.
  destruct (getStats id cs) as [s cs'] eqn:E. cbn [fst snd state].
  destruct (state s) eqn:St; rewrite ?getStats_insert; cbn;
    rewrite ?getStats_insert; cbn; reflexivity.
Qed.

(** The record of a circuit after [recordFailure]. *)
Lemma recordFailure_stats (id : string) (config : option CircuitBreakerConfig)
    (now : Z) (cs : circuits) :
  fst (getStats id (recordFailure id config now cs)) =
    let s := fst (getStats id cs) in
    {| failures := failures s + 1;
       successes := successes s;
       lastFailureTime := now;
       lastSuccessTime := lastSuccessTime s;
       state := match state s with
                | closed =>
                    if failureThreshold (effectiveConfig config) <=? failures s + 1
                    then open else closed
                | _ => open
                end |}.
Proof.
  unfold recordFailure, transitionToOpen.
  destruct (getStats id cs) as [s cs'] eqn:E. cbn [fst snd state failures].
  destruct (state s) eqn:St;
    [destruct (failureThreshold (effectiveConfig config) <=? failures s + 1)| |];
    rewrite ?getStats_insert; cbn; rewrite ?getStats_insert; cbn; reflexivity.
Qed.

(** [isOpen] on an open circuit whose reset timeout has elapsed. *)
Lemma isOpen_elapsed (id : string) (config : option CircuitBreakerConfig)
    (now : Z) (cs : circuits) :
  getState id cs = open ->
  resetTimeoutMs (effectiveConfig config) <= now - lastFailureTime (fst (getStats id cs)) ->
  fst (isOpen id config now cs) = false /\
  fst (getStats id (snd (isOpen id config now cs))) =
    set_state half_open (fst (getStats id cs)).
Proof.
  unfold getState, isOpen, transitionToHalfOpen.
  destruct (getStats id cs) as [s cs'] eqn:E. simpl. intros St Hel.
  rewrite St. apply Z.leb_le in Hel. rewrite Hel. simpl.
  assert (Hs : getStats id cs' = (s, cs')).
  { unfold getStats in E |- *. destruct (cs !! id) eqn:L.
    - inversion E; subst. by rewrite L.
    - inversion E; subst. by rewrite lookup_insert_eq. }
  rewrite Hs. by rewrite getStats_insert.
Qed.

(** C1.  When a circuit is open and [resetTimeoutMs] has elapsed since its
    last recorded failure, the next [isOpen] returns [false] and leaves the
    circuit half-open; from there every [recordSuccess] closes it with the
    failure counter at 0, and every [recordFailure] opens it again. *)
Theorem open_circuit_recovers_through_half_open
    (id : string) (config : option CircuitBreakerConfig) (now : Z) (cs : circuits) :
  getState id cs = open ->
  resetTimeoutMs (effectiveConfig config) <= now - lastFailureTime (fst (getStats id cs)) ->
  fst (isOpen id config now cs) = false /\
  getState id (snd (isOpen id config now cs)) = half_open /\
  (forall later,
     getState id (recordSuccess id later (snd (isOpen id config now cs))) = closed /\
     failureCount id (recordSuccess id later (snd (isOpen id config now cs))) = 0) /\
  (forall later config',
     getState id (recordFailure id config' later (snd (isOpen id config now cs))) = open).
Proof.
  intros St Hel.
  destruct (isOpen_elapsed id config now cs St Hel) as [Hans Hstats].
  split; [exact Hans|]. split.
  { unfold getState. by rewrite Hstats. }
  split.
  - intros later. unfold getState, failureCount.
    rewrite recordSuccess_stats, Hstats. simpl. done.
  - intros later config'. unfold getState.
    rewrite recordFailure_stats, Hstats. simpl. done.
Qed.

(** A circuit opened by five failures at time 0..4 is probed at 60004. *)
Lemma open_circuit_recovers_through_half_open_witness :
  fst (isOpen "svc" None 60004
         (recordAll "svc" None [Failed 0; Failed 1; Failed 2; Failed 3; Failed 4] ∅)) = false /\
  getState "svc" (snd (isOpen "svc" None 60004
         (recordAll "svc" None [Failed 0; Failed 1; Failed 2; Failed 3; Failed 4] ∅))) = half_open.
Proof.
  pose proof (open_circuit_recovers_through_half_open "svc" None 60004
    (recordAll "svc" None [Failed 0; Failed 1; Failed 2; Failed 3; Failed 4] ∅)) as H.
  destruct H as (H1 & H2 & _).
  - vm_compute. reflexivity.
  - vm_compute. discriminate.
  - split; [exact H1 | exact H2].
Defined.

(** One report on a closed circuit that stays below the threshold. *)
Lemma record_closed_below (id : string) (config : option CircuitBreakerConfig)
    (r : report) (cs : circuits) :
  getState id cs = closed ->
  failureCount id cs + failuresIn [r] < failureThreshold (effectiveConfig config) ->
  getState id (record id config cs r) = closed /\
  failureCount id (record id config cs r) = failureCount id cs + failuresIn [r].
Proof.
  unfold getState, failureCount. intros St Hlt.
  destruct r as [now|now]; cbn [record].
  - rewrite recordSuccess_stats. cbn. rewrite St.
    unfold failuresIn; cbn. split; [done|lia].
  - rewrite recordFailure_stats. cbn. rewrite St.
    unfold failuresIn in *; cbn in *.
    destruct (Z.leb_spec (failureThreshold (effectiveConfig config))
                (failures (getStats id cs).1 + 1)); [lia|done].
Qed.

Lemma failuresIn_cons (r : report) (rs : list report) :
  failuresIn (r :: rs) = failuresIn [r] + failuresIn rs.
Proof. unfold failuresIn. destruct r; cbn; lia. Qed.

Lemma failuresIn_nonneg (rs : list report) : 0 <= failuresIn rs.
Proof. unfold failuresIn. lia. Qed.

(** Reports on a closed circuit whose failures, added to the counter, stay
    below the threshold: the circuit stays closed and has counted them all. *)
Lemma recordAll_closed_below (id : string) (config : option CircuitBreakerConfig)
    (rs : list report) (cs : circuits) :
  getState id cs = closed ->
  failureCount id cs + failuresIn rs < failureThreshold (effectiveConfig config) ->
  getState id (recordAll id config rs cs) = closed /\
  failureCount id (recordAll id config rs cs) = failureCount id cs + failuresIn rs.
Proof.
  revert cs. induction rs as [|r rs IH]; intros cs St Hlt.
  - cbn. unfold failuresIn; cbn. split; [done|lia].
  - rewrite failuresIn_cons in Hlt |- *.
    pose proof (failuresIn_nonneg rs) as Hrs.
    destruct (record_closed_below id config r cs St) as [St1 Hc1]; [lia|].
    change (recordAll id config (r :: rs) cs)
      with (recordAll id config rs (record id config cs r)).
    destruct (IH (record id config cs r) St1) as [St2 Hc2]; [lia|].
    split; [done|lia].
Qed.




End CircuitBreakerProps.

(** ** Request deduplication *)

Module RequestDeduplicatorProps.
Import RequestDeduplicator.

(** C3 at its failing input.  Two [execute] calls for one key are issued
    in the same synchronous turn, so both pass [checkAndWait] before
    either has registered; then both continuations run and both
    operations settle.  The operation is invoked twice, and the two
    callers receive two different results. *)
Theorem calls_in_one_turn_invoke_operation_twice :
  invocationCount "k"
    (run [Call 1 "k"; Call 2 "k"; Tick 0; Tick 0;
          Settle 0 (Fulfilled 10); Settle 1 (Fulfilled 20)] empty) = 2%nat /\
  outcomeOf 1
    (run [Call 1 "k"; Call 2 "k"; Tick 0; Tick 0;
          Settle 0 (Fulfilled 10); Settle 1 (Fulfilled 20)] empty) = Some (Fulfilled 10) /\
  outcomeOf 2
    (run [Call 1 "k"; Call 2 "k"; Tick 0; Tick 0;
          Settle 0 (Fulfilled 10); Settle 1 (Fulfilled 20)] empty) = Some (Fulfilled 20).
Proof. vm_compute. repeat split. Qed.

End RequestDeduplicatorProps.

(** ** Rate limiting *)

Module RateLimiterProps.
Import RateLimiter.

(** [checkLimit] and [enforce] on a key whose bucket exists, in terms of
    the bucket. *)
Lemma checkLimit_present (key : string) (config : IRateLimitConfig) (n now : Z)
    (bs : buckets) (b : RateLimitBucket) :
  bs !! key = Some b ->
  checkLimit key config n now bs =
    match strategy config with
    | sliding => (fst (checkSlidingWindow b config n now),
                  <[key := snd (checkSlidingWindow b config n now)]> bs)
    | fixed => (fst (checkFixedWindow b config n now),
                <[key := snd (checkFixedWindow b config n now)]> bs)
    end.
Proof.
  intros Hb. unfold checkLimit, getBucket. rewrite Hb.
  destruct (strategy config).
  - by destruct (checkSlidingWindow b config n now).
  - by destruct (checkFixedWindow b config n now).
Qed.

Lemma checkLimit_absent (key : string) (config : IRateLimitConfig) (n now : Z)
    (bs : buckets) :
  bs !! key = None ->
  checkLimit key config n now bs =
    checkLimit key config n now (<[key := freshBucket config now]> bs).
Proof.
  intros Hb. unfold checkLimit, getBucket. rewrite Hb, lookup_insert_eq.
  destruct (strategy config).
  - destruct (checkSlidingWindow _ config n now). by rewrite insert_insert_eq.
  - destruct (checkFixedWindow _ config n now). by rewrite insert_insert_eq.
Qed.

Lemma getRemainingTokens_present (key : string) (config : IRateLimitConfig) (now : Z)
    (bs : buckets) (b : RateLimitBucket) :
  bs !! key = Some b ->
  snd (getRemainingTokens key config now bs) =
    match strategy config with
    | sliding => <[key := refillSlidingWindow b config now]> bs
    | fixed => <[key := refillFixedWindow b config now]> bs
    end.
Proof.
  intros Hb. unfold getRemainingTokens, getBucket. rewrite Hb.
  by destruct (strategy config).
Qed.

(** [enforce] with the fixed strategy on an existing bucket. *)
Lemma enforce_fixed_present (key : string) (config : IRateLimitConfig) (n now later : Z)
    (bs : buckets) (b : RateLimitBucket) :
  strategy config = fixed ->
  bs !! key = Some b ->
  enforce key config n now later bs =
    if fst (checkFixedWindow b config n now) then
      (inl tt, <[key := refillFixedWindow (snd (checkFixedWindow b config n now)) config later]> bs)
    else
      (inr {| err_key := key; err_limit := maxRequests config;
              err_windowMs := windowMs config;
              err_resetTime := windowStart (snd (checkFixedWindow b config n now)) + windowMs config;
              err_strategy := fixed |},
       <[key := snd (checkFixedWindow b config n now)]> bs).
Proof.
  intros Hs Hb. unfold enforce.
  rewrite (checkLimit_present key config n now bs b Hb), Hs.
  destruct (checkFixedWindow b config n now) as [[|] b'] eqn:E; cbn [fst snd].
  - pose proof (getRemainingTokens_present key config later (<[key := b']> bs) b'
                  (lookup_insert_eq _ _ _)) as Hr.
    rewrite Hs, insert_insert_eq in Hr.
    destruct (getRemainingTokens key config later (<[key:=b']> bs)) as [r bs'].
    cbn in Hr. by subst.
  - unfold getBucket. rewrite lookup_insert_eq.
    unfold getResetTime. by rewrite Hs.
Qed.

(** [enforce] with the sliding strategy on an existing bucket. *)
Lemma enforce_sliding_present (key : string) (config : IRateLimitConfig) (n now later : Z)
    (bs : buckets) (b : RateLimitBucket) :
  strategy config = sliding ->
  bs !! key = Some b ->
  enforce key config n now later bs =
    if fst (checkSlidingWindow b config n now) then
      (inl tt, <[key := refillSlidingWindow (snd (checkSlidingWindow b config n now)) config later]> bs)
    else
      (inr {| err_key := key; err_limit := maxRequests config;
              err_windowMs := windowMs config;
              err_resetTime := lastRefill (snd (checkSlidingWindow b config n now)) + windowMs config;
              err_strategy := sliding |},
       <[key := snd (checkSlidingWindow b config n now)]> bs).
Proof.
  intros Hs Hb. unfold enforce.
  rewrite (checkLimit_present key config n now bs b Hb), Hs.
  destruct (checkSlidingWindow b config n now) as [[|] b'] eqn:E; cbn [fst snd].
  - pose proof (getRemainingTokens_present key config later (<[key := b']> bs) b'
                  (lookup_insert_eq _ _ _)) as Hr.
    rewrite Hs, insert_insert_eq in Hr.
    destruct (getRemainingTokens key config later (<[key:=b']> bs)) as [r bs'].
    cbn in Hr. by subst.
  - unfold getBucket. rewrite lookup_insert_eq.
    unfold getResetTime. by rewrite Hs.
Qed.

(** [enforce] on a key without bucket behaves as on the fresh bucket. *)
Lemma enforce_absent (key : string) (config : IRateLimitConfig) (n now later : Z)
    (bs : buckets) :
  bs !! key = None ->
  enforce key config n now later bs =
    enforce key config n now later (<[key := freshBucket config now]> bs).
Proof.
  intros Hb. unfold enforce. by rewrite (checkLimit_absent key config n now bs Hb).
Qed.






End RateLimiterProps.

(** ** Retries *)

Module RetryManagerProps.
Import RetryManager.

Section Execute.

Context {T E : Type}.
Variable operation : Z -> T + E.
Variable config : IRetryConfig.
Variable shouldRetry : option (E -> bool).

(** The loop, started at an attempt within bounds with the iterations that
    are left: it makes some [n >= 1] attempts, as scheduled; all but the
    last fail with an error that is retried; the last either succeeds, or
    fails with the error that is thrown, and then the error is not to be
    retried or the attempts are used up. *)
Lemma attempts_spec (fuel : nat) :
  forall (a : Z) (lastError : option E) (done : list action) (stored : Z),
    0 <= a <= max config ->
    Z.of_nat fuel = max config + 1 - a ->
    exists n : nat,
      (1 <= n <= fuel)%nat /\
      snd (fst (attempts operation config shouldRetry fuel a lastError done stored))
        = done ++ scheduleFrom config a n /\
      (forall j : nat, (j < n - 1)%nat ->
         exists e, operation (a + Z.of_nat j) = inr e /\ abortsOn shouldRetry e = false) /\
      match operation (a + Z.of_nat n - 1) with
      | inl r =>
          fst (fst (attempts operation config shouldRetry fuel a lastError done stored))
            = inl r
      | inr e =>
          fst (fst (attempts operation config shouldRetry fuel a lastError done stored))
            = inr (Some e) /\
          (abortsOn shouldRetry e = true \/ a + Z.of_nat n = max config + 1)
      end.
Proof.
  induction fuel as [|fuel IH]; intros a lastError done stored Ha Hfuel; [lia|].
  cbn [attempts].
  rewrite (proj2 (Z.leb_le a (max config))) by lia.
  set (done1 := (if 0 <? a then done ++ [Sleep (calculateDelay config a)] else done)
                  ++ [Invoke a]).
  assert (Hdone1 : done1 = done ++ scheduleFrom config a 1).
  { unfold done1. cbn. destruct (0 <? a); cbn; by rewrite <- ?app_assoc. }
  destruct (operation a) as [r|e] eqn:Hop.
  - exists 1%nat. cbn [fst snd]. split; [lia|]. split; [exact Hdone1|]. split.
    + intros j Hj. lia.
    + replace (a + Z.of_nat 1 - 1) with a by lia. by rewrite Hop.
  - destruct (abortsOn shouldRetry e) eqn:Hab.
    + exists 1%nat. cbn [fst snd]. split; [lia|]. split; [exact Hdone1|]. split.
      * intros j Hj. lia.
      * replace (a + Z.of_nat 1 - 1) with a by lia. rewrite Hop. auto.
    + destruct (Z.leb_spec (max config) a) as [Hlast|Hmore].
      * exists 1%nat. cbn [fst snd]. split; [lia|]. split; [exact Hdone1|]. split.
        -- intros j Hj. lia.
        -- replace (a + Z.of_nat 1 - 1) with a by lia. rewrite Hop.
           split; [done|right; lia].
      * destruct (IH (a + 1) (Some e) done1 (a + 1)) as (n & Hn & Hd & Hprev & Hlast);
          [lia|lia|].
        exists (S n). split; [lia|]. split.
        { rewrite Hd, Hdone1. cbn [scheduleFrom]. rewrite <- !app_assoc.
          reflexivity. }
        split.
        { intros j Hj. destruct j as [|j].
          - exists e. replace (a + Z.of_nat 0) with a by lia. done.
          - destruct (Hprev j) as (e' & He' & Hab'); [lia|].
            exists e'. replace (a + Z.of_nat (S j)) with (a + 1 + Z.of_nat j) by lia.
            done. }
        replace (a + Z.of_nat (S n) - 1) with (a + 1 + Z.of_nat n - 1) by lia.
        destruct (operation (a + 1 + Z.of_nat n - 1)); [done|].
        destruct Hlast as [? [?|?]]; split; auto. right; lia.
Qed.

End Execute.

(** The operation calls of a schedule are the attempts in order. *)
Lemma invocations_scheduleFrom (config : IRetryConfig) (n : nat) :
  forall a : Z,
    invocations (scheduleFrom config a n) = map (fun j => a + Z.of_nat j) (seq 0 n).
Proof.
  induction n as [|n IH]; intros a; [reflexivity|].
  cbn [scheduleFrom]. unfold invocations in *. rewrite omap_app.
  replace (omap _ (if 0 <? a then [Sleep (calculateDelay config a)] else []))
    with (@nil Z) by (destruct (0 <? a); reflexivity).
  cbn [app omap]. cbn. rewrite IH. cbn [seq map]. f_equal; [lia|].
  rewrite <- seq_shift, map_map. apply map_ext. intros j. lia.
Qed.





End RetryManagerProps.

(** ** State documents *)

Module JsonProps.
Import Json Lodash.

Lemma assoc_get_set_same (k : string) (v : json) (l : list (string * json)) :
  assoc_get k (assoc_set k v l) = Some v.
Proof.
  induction l as [|[k' v'] l IH]; cbn.
  - by rewrite String.eqb_refl.
  - destruct (String.eqb_spec k k') as [->|Hne]; cbn.
    + by rewrite String.eqb_refl.
    + by rewrite (proj2 (String.eqb_neq k k') Hne).
Qed.

Lemma assoc_get_set_other (k k' : string) (v : json) (l : list (string * json)) :
  k <> k' -> assoc_get k (assoc_set k' v l) = assoc_get k l.
Proof.
  intros Hne. induction l as [|[k2 v2] l IH]; cbn.
  - by rewrite (proj2 (String.eqb_neq k k') Hne).
  - destruct (String.eqb_spec k' k2) as [->|Hne2]; cbn.
    + by rewrite (proj2 (String.eqb_neq k k2) Hne).
    + by rewrite IH.
Qed.

Lemma assoc_get_clone (k : string) (l : list (string * json)) :
  assoc_get k (map (fun kv => match kv with (k, x) => (k, cloneDeep x) end) l)
    = cloneDeep <$> assoc_get k l.
Proof.
  induction l as [|[k' v'] l IH]; cbn; [done|].
  destruct (String.eqb k k'); [done|exact IH].
Qed.

(** Reading a property just assigned on an object, through a deep copy. *)
Lemma getProp_clone_assign (k : string) (v : json) (fields : list (string * json)) :
  getProp (cloneDeep (assign (JObj fields) k v)) k = cloneDeep v.
Proof.
  cbn. by rewrite assoc_get_clone, assoc_get_set_same.
Qed.

Lemma noArrayOn_undefined (keys : list string) : noArrayOn keys JUndefined = true.
Proof. induction keys; cbn; [done|exact IHkeys]. Qed.

Lemma noArrayOn_empty_object (keys : list string) : noArrayOn keys (JObj []) = true.
Proof. destruct keys; cbn; [done|apply noArrayOn_undefined]. Qed.

(** [baseSet] along keys that are neither indices nor reserved, through a
    document without arrays on the way, followed by a deep copy: the keys
    lead to a copy of the value. *)
Lemma baseGet_clone_baseSet (keys : list string) (v : json) :
  keys <> [] ->
  Forall (fun k => unsafeKey k = false /\ isIndex k = None) keys ->
  forall fields : list (string * json),
    noArrayOn (removelast keys) (JObj fields) = true ->
    baseGet keys (cloneDeep (baseSet keys v (JObj fields))) = cloneDeep v.
Proof.
  induction keys as [|k rest IH]; [done|]. intros _ Hkeys fields Hno.
  inversion Hkeys as [|? ? [Hsafe Hidx] Hrest]; subst.
  destruct rest as [|k2 rest].
  - cbn [baseSet]. rewrite Hsafe. cbn [assign cloneDeep baseGet getProp].
    by rewrite assoc_get_clone, assoc_get_set_same.
  - cbn [baseSet]. rewrite Hsafe.
    inversion Hrest as [|? ? [Hsafe2 Hidx2] Hrest2]; subst. rewrite Hidx2.
    set (child := if isObject (getProp (JObj fields) k)
                  then getProp (JObj fields) k else JObj []).
    assert (Hchild : exists fs, child = JObj fs /\
                                noArrayOn (removelast (k2 :: rest)) (JObj fs) = true).
    { change (removelast (k :: k2 :: rest)) with (k :: removelast (k2 :: rest)) in Hno.
      cbn [noArrayOn] in Hno. unfold child.
      destruct (getProp (JObj fields) k) as [| | | | |es ps|fs] eqn:Hg; cbn [isObject];
        try (eexists; split; [reflexivity|apply noArrayOn_empty_object]).
      - destruct (removelast (k2 :: rest)); cbn in Hno; discriminate.
      - eexists; split; [reflexivity|exact Hno]. }
    destruct Hchild as (fs & -> & Hno').
    cbn [assign cloneDeep baseGet getProp].
    rewrite assoc_get_clone, assoc_get_set_same.
    cbn [fmap option_fmap option_map default].
    apply IH; [done|exact Hrest|exact Hno'].
Qed.

(** [_.set] at the path [form.make.value] of an object, a deep copy, and
    [_.get] at the same path. *)
Lemma get_clone_set_form_make_value (fields : list (string * json)) (v : json) :
  noArrayOn ["form"; "make"] (JObj fields) = true ->
  get (cloneDeep (set (JObj fields) "form.make.value" v)) "form.make.value"
    = cloneDeep v.
Proof.
  intros Hno. unfold set, get, castPath. cbn [isObject].
  replace (hasDot "form.make.value") with true by reflexivity. cbn [andb].
  destruct (hasProp (JObj fields) "form.make.value") eqn:Hflat; cbn [negb].
  - cbn [baseSet]. replace (unsafeKey "form.make.value") with false by reflexivity.
    cbn [assign cloneDeep hasProp]. rewrite assoc_get_clone, assoc_get_set_same.
    cbn [fmap option_fmap option_map]. rewrite bool_decide_eq_true_2 by eauto.
    cbn [negb baseGet getProp]. by rewrite assoc_get_clone, assoc_get_set_same.
  - replace (splitDots "form.make.value" EmptyString)
      with ["form"; "make"; "value"] by reflexivity.
    assert (Hkeep : hasProp (cloneDeep (baseSet ["form"; "make"; "value"] v (JObj fields)))
                      "form.make.value" = false).
    { cbn [baseSet]. replace (unsafeKey "form") with false by reflexivity.
      cbn [assign cloneDeep hasProp].
      rewrite assoc_get_clone, assoc_get_set_other by discriminate.
      cbn [hasProp] in Hflat. apply bool_decide_eq_false in Hflat.
      destruct (assoc_get "form.make.value" fields); [exfalso; eauto|].
      apply bool_decide_eq_false. cbn. by intros [? ?]. }
    rewrite Hkeep. cbn [negb].
    apply baseGet_clone_baseSet; [done| |exact Hno].
    repeat constructor.
Qed.



(** [_.set] on an object returns an object. *)
Lemma set_object (fields : list (string * json)) (p : string) (v : json) :
  exists fields', set (JObj fields) p v = JObj fields'.
Proof.
  unfold set. cbn [isObject]. destruct (castPath p (JObj fields)) as [|k rest]; cbn [baseSet].
  - eauto.
  - destruct (unsafeKey k); [eauto|]. destruct rest; cbn [assign]; eauto.
Qed.

End JsonProps.

(** ** State store *)

Module StateStoreProps.
Import Json StateStore.


Lemma snap_get_set_other (id k : string) (sn : StateSnapshot)
    (l : list (string * StateSnapshot)) :
  id <> k -> snap_get id (snap_set k sn l) = snap_get id l.
Proof.
  intros Hne. induction l as [|[k' sn'] l IH]; cbn.
  - by rewrite (proj2 (String.eqb_neq id k) Hne).
  - destruct (String.eqb_spec k k') as [->|Hne']; cbn.
    + by rewrite (proj2 (String.eqb_neq id k') Hne).
    + by rewrite IH.
Qed.

Lemma snap_get_delete_other (id k : string) (l : list (string * StateSnapshot)) :
  id <> k -> snap_get id (snap_delete k l) = snap_get id l.
Proof.
  intros Hne. induction l as [|[k' sn'] l IH]; cbn; [done|].
  destruct (String.eqb_spec k k') as [->|Hne']; cbn.
  - by rewrite (proj2 (String.eqb_neq id k') Hne).
  - by rewrite IH.
Qed.

Lemma snap_get_delete_same (id : string) (l : list (string * StateSnapshot)) :
  NoDup (map fst l) -> snap_get id (snap_delete id l) = None.
Proof.
  induction l as [|[k' sn'] l IH]; cbn; [done|]. intros Hnd.
  apply NoDup_cons in Hnd as [Hk Hnd].
  destruct (String.eqb_spec id k') as [->|Hne]; cbn.
  - clear IH. induction l as [|[k2 sn2] l IH2]; cbn; [done|].
    cbn in Hk. apply not_elem_of_cons in Hk as [Hk1 Hk2].
    rewrite (proj2 (String.eqb_neq k' k2) Hk1). apply IH2; [done|].
    cbn in Hnd. by apply NoDup_cons in Hnd as [_ ?].
  - rewrite (proj2 (String.eqb_neq id k') Hne). by apply IH.
Qed.

(** On a map without the key, [set] appends the entry. *)
Lemma snap_set_absent (id : string) (sn : StateSnapshot)
    (l : list (string * StateSnapshot)) :
  snap_get id l = None -> snap_set id sn l = l ++ [(id, sn)].
Proof.
  induction l as [|[k sn'] l IH]; cbn; [done|].
  destruct (String.eqb id k); [done|]. intros H. by rewrite IH.
Qed.




Section WithLodash.

Variable lodash_set : json -> string -> json -> json.
Variable lodash_unset : json -> string -> json.




End WithLodash.



(** C6, as stated, fails in two ways.  In a store whose history holds
    [maxHistorySize] events (here the default 1000, after 1000 patches)
    the patch leaves the history at the same length; and on a document
    that is not an object (here the number 7) the patch sets nothing, so
    the read returns [undefined]. *)
Lemma toyota_patch_full_history_or_primitive_document :
  length (history
    (Nat.iter 1000
       (applyPatches Lodash.set Lodash.unset
          [{| op := replace; path := "$.form.make.value"; value := JStr "Toyota" |}] 0)
       (create (JObj []) defaultConfig))) = 1000%nat /\
  length (history
    (applyPatches Lodash.set Lodash.unset
       [{| op := replace; path := "$.form.make.value"; value := JStr "Toyota" |}] 1
       (Nat.iter 1000
          (applyPatches Lodash.set Lodash.unset
             [{| op := replace; path := "$.form.make.value"; value := JStr "Toyota" |}] 0)
          (create (JObj []) defaultConfig)))) = 1000%nat /\
  Lodash.get
    (getCurrentState
       (applyPatches Lodash.set Lodash.unset
          [{| op := replace; path := "$.form.make.value"; value := JStr "Toyota" |}] 1
          (create (JNum 7) defaultConfig)))
    "form.make.value" = JUndefined.
Proof. vm_compute. repeat split. Qed.

(** The history after [addToHistory]: one longer while there is room,
    as long as before when it is full. *)
Lemma addToHistory_length (event : IStateEvent) (cfg : StateStoreConfig)
    (h : list IStateEvent) :
  length (addToHistory event cfg h) =
    if Z.of_nat (length h) <? maxHistorySize cfg then S (length h) else length h.
Proof.
  unfold addToHistory. rewrite length_app. cbn [length].
  destruct (Z.ltb_spec (maxHistorySize cfg) (Z.of_nat (length h + 1)));
    destruct (Z.ltb_spec (Z.of_nat (length h)) (maxHistorySize cfg)); try lia;
    destruct h; cbn; rewrite ?length_app; cbn; lia.
Qed.

(** C6, amended.  On a document that is an object in which neither
    [form] nor [form.make] is an array, the patch [replace
    $.form.make.value := "Toyota"] makes a read of the current state at
    [form.make.value] return ["Toyota"]; the history grows by exactly one
    event when it holds fewer than [maxHistorySize] events, and keeps its
    length otherwise (the oldest event is dropped). *)
Theorem toyota_patch_sets_value_and_logs_event
    (fields : list (string * json)) (now : Z) (s : store) :
  currentState s = JObj fields ->
  Lodash.noArrayOn ["form"; "make"] (JObj fields) = true ->
  Lodash.get
    (getCurrentState
       (applyPatches Lodash.set Lodash.unset
          [{| op := replace; path := "$.form.make.value"; value := JStr "Toyota" |}] now s))
    "form.make.value" = JStr "Toyota" /\
  length (history
    (applyPatches Lodash.set Lodash.unset
       [{| op := replace; path := "$.form.make.value"; value := JStr "Toyota" |}] now s)) =
    if Z.of_nat (length (history s)) <? maxHistorySize (config s)
    then S (length (history s)) else length (history s).
Proof.
  intros Hobj Hno. unfold applyPatches, getCurrentState.
  cbn [generateEventId fold_left applyPatch op path value].
  unfold setValueAtPath.
  replace (isRootPath "$.form.make.value") with false by reflexivity.
  replace (stripRoot "$.form.make.value") with "form.make.value" by reflexivity.
  rewrite Hobj.
  destruct (JsonProps.set_object fields "form.make.value" (JStr "Toyota")) as [fields' Hset].
  pose proof (JsonProps.get_clone_set_form_make_value fields (JStr "Toyota") Hno) as Hget.
  rewrite Hset in Hget |- *. cbn [cloneDeep generateChecksumThrows orb currentState history].
  split; [exact Hget|apply addToHistory_length].
Qed.

(** The patch on the document [{ form: { make: { value: "Honda" } } }]. *)
Lemma toyota_patch_sets_value_and_logs_event_witness :
  Lodash.get
    (getCurrentState
       (applyPatches Lodash.set Lodash.unset
          [{| op := replace; path := "$.form.make.value"; value := JStr "Toyota" |}] 5
          (create (JObj [("form", JObj [("make", JObj [("value", JStr "Honda")])])])
             defaultConfig)))
    "form.make.value" = JStr "Toyota".
Proof.
  destruct (toyota_patch_sets_value_and_logs_event
              [("form", JObj [("make", JObj [("value", JStr "Honda")])])] 5
              (create (JObj [("form", JObj [("make", JObj [("value", JStr "Honda")])])])
                 defaultConfig)) as [H _].
  - reflexivity.
  - reflexivity.
  - exact H.
Defined.

End StateStoreProps.

(** ** Tool orchestration *)

Module ToolOrchestratorProps.
Import Json ToolOrchestrator.

(** C8 at its failing input.  Tools [a] and [b] are registered server
    tools, the executors are enabled, and [a] fails inside the executor.
    [BaseToolExecutor.execute] returns the failure as a result instead of
    throwing it, so [executeSequence], called without [continueOnError],
    goes on to run [b]. *)
Theorem failed_action_does_not_stop_sequence :
  map success
    (executeSequence
       (<["a" := {| tool_id := "a"; tool_type := server |}]>
          (<["b" := {| tool_id := "b"; tool_type := server |}]> ∅))
       (fun _ => true) (fun _ => true)
       (fun _ tool _ =>
          if String.eqb (tool_id tool) "a" then inr (Thrown (JStr "boom"))
          else inl {| success := true; data := JObj [("x", JNum 1)]; error := None |})
       ["a"; "b"] {| state := JObj []; previousResults := JUndefined |} false)
    = [false; true] /\
  map fst
    (sequenceCalls
       (<["a" := {| tool_id := "a"; tool_type := server |}]>
          (<["b" := {| tool_id := "b"; tool_type := server |}]> ∅))
       (fun _ => true) (fun _ => true)
       (fun _ tool _ =>
          if String.eqb (tool_id tool) "a" then inr (Thrown (JStr "boom"))
          else inl {| success := true; data := JObj [("x", JNum 1)]; error := None |})
       ["a"; "b"] {| state := JObj []; previousResults := JUndefined |} false)
    = ["a"; "b"].
Proof. vm_compute. split; reflexivity. Qed.

End ToolOrchestratorProps.

(** ** Cache *)

Module CacheManagerProps.
Import Json CacheManager.

(** C9 at its failing input.  The value 0 is set in the memory tier with a
    TTL of one second and read at the same instant: [get] returns [null],
    a miss.  The same calls on the [localStorage] tier return the value. *)
Theorem memory_get_misses_fresh_zero :
  fst (get "k" memory 0
         (snd (set "k" (JNum 0) 1 memory 0
                 {| memoryCache := ∅; localItems := ∅; sessionItems := ∅;
                    hasWindow := true |}))) = JNull /\
  fst (get "k" localStorage 0
         (snd (set "k" (JNum 0) 1 localStorage 0
                 {| memoryCache := ∅; localItems := ∅; sessionItems := ∅;
                    hasWindow := true |}))) = JNum 0.
Proof. vm_compute. split; reflexivity. Qed.

(** C10.  In the memory tier, [set] followed by [get] before the entry
    expires returns the value when it is truthy and [null] when it is
    falsy, which is also what [get] returns for a key that is not cached;
    0, the empty string, [false] and [null] are falsy. *)
Theorem memory_get_returns_null_for_falsy_value
    (key : string) (v : json) (ttlSeconds now later : Z) (c : cache) :
  ttlSeconds = 0 \/ later <= now + ttlSeconds * 1000 ->
  fst (get key memory later (snd (set key v ttlSeconds memory now c)))
    = (if truthy v then v else JNull) /\
  (memoryCache c !! key = None -> fst (get key memory later c) = JNull) /\
  truthy (JNum 0) = false /\ truthy (JStr "") = false /\
  truthy (JBool false) = false /\ truthy JNull = false.
Proof.
  intros Hlive. split; [|split; [|by repeat split]].
  - unfold get, set, nodeCache_get, nodeCache_set. cbn [snd memoryCache with_memory].
    rewrite lookup_insert_eq.
    destruct (Z.eqb_spec ttlSeconds 0) as [->|Hne]; cbn [negb andb Z.eqb fst].
    + reflexivity.
    + destruct Hlive as [?|Hlive]; [done|].
      rewrite (proj2 (Z.ltb_ge _ _)) by lia. rewrite andb_false_r. reflexivity.
  - intros Habs. unfold get, nodeCache_get. by rewrite Habs.
Qed.

(** The values 0 and ["x"], set with a TTL of 300 s and read 1 s later. *)
Lemma memory_get_returns_null_for_falsy_value_witness :
  fst (get "k" memory 1000
         (snd (set "k" (JNum 0) 300 memory 0
                 {| memoryCache := ∅; localItems := ∅; sessionItems := ∅;
                    hasWindow := false |}))) = JNull /\
  fst (get "k" memory 1000
         (snd (set "k" (JStr "x") 300 memory 0
                 {| memoryCache := ∅; localItems := ∅; sessionItems := ∅;
                    hasWindow := false |}))) = JStr "x".
Proof.
  split.
  - destruct (memory_get_returns_null_for_falsy_value "k" (JNum 0) 300 0 1000
                {| memoryCache := ∅; localItems := ∅; sessionItems := ∅;
                   hasWindow := false |}) as [H _]; [right; lia|exact H].
  - destruct (memory_get_returns_null_for_falsy_value "k" (JStr "x") 300 0 1000
                {| memoryCache := ∅; localItems := ∅; sessionItems := ∅;
                   hasWindow := false |}) as [H _]; [right; lia|exact H].
Defined.

End CacheManagerProps.

(* ====================================================================== *)
(** * Further properties of the modelled code *)
(* ====================================================================== *)

(** ** Circuit breaker: [execute], forcing, independence of circuits *)

Module CircuitBreakerMore.
Import CircuitBreaker CircuitBreakerProps.

(** A circuit that is not closed has a record in the map. *)
Lemma getStats_present (id : string) (cs : circuits) :
  getState id cs <> closed -> getStats id cs = (fst (getStats id cs), cs).
Proof.
  unfold getState, getStats. destruct (cs !! id); cbn; [done|]. intros H. by destruct H.
Qed.

(** The map around the circuit that an operation works on. *)
Lemma getStats_other (id id' : string) (cs : circuits) :
  id <> id' -> snd (getStats id cs) !! id' = cs !! id'.
Proof.
  intros Hne. unfold getStats. destruct (cs !! id); cbn; [done|].
  by rewrite lookup_insert_ne.
Qed.

Lemma transition_other (id id' : string) (cs : circuits) :
  id <> id' ->
  transitionToOpen id cs !! id' = cs !! id' /\
  transitionToClosed id cs !! id' = cs !! id' /\
  transitionToHalfOpen id cs !! id' = cs !! id'.
Proof.
  intros Hne. unfold transitionToOpen, transitionToClosed, transitionToHalfOpen.
  pose proof (getStats_other id id' cs Hne) as H.
  destruct (getStats id cs) as [s cs']. cbn in H.
  rewrite !lookup_insert_ne by done. done.
Qed.

Lemma isOpen_other (id id' : string) (config : option CircuitBreakerConfig)
    (now : Z) (cs : circuits) :
  id <> id' -> snd (isOpen id config now cs) !! id' = cs !! id'.
Proof.
  intros Hne. unfold isOpen.
  pose proof (getStats_other id id' cs Hne) as H.
  destruct (getStats id cs) as [s cs']. cbn in H.
  destruct (state s); cbn; try done.
  destruct (resetTimeoutMs (effectiveConfig config) <=? now - lastFailureTime s); cbn;
    [|done].
  destruct (transition_other id id' cs' Hne) as (_ & _ & ->). done.
Qed.

Lemma recordSuccess_other (id id' : string) (now : Z) (cs : circuits) :
  id <> id' -> recordSuccess id now cs !! id' = cs !! id'.
Proof.
  intros Hne. unfold recordSuccess.
  pose proof (getStats_other id id' cs Hne) as H.
  destruct (getStats id cs) as [s cs']. cbn in H. cbn [state].
  destruct (state s);
    rewrite ?(proj1 (proj2 (transition_other id id' _ Hne)));
    by rewrite lookup_insert_ne.
Qed.

Lemma recordFailure_other (id id' : string) (config : option CircuitBreakerConfig)
    (now : Z) (cs : circuits) :
  id <> id' -> recordFailure id config now cs !! id' = cs !! id'.
Proof.
  intros Hne. unfold recordFailure.
  pose proof (getStats_other id id' cs Hne) as H.
  destruct (getStats id cs) as [s cs']. cbn in H. cbn [state failures].
  destruct (state s);
    [destruct (failureThreshold (effectiveConfig config) <=? failures s + 1)| |];
    rewrite ?(proj1 (transition_other id id' _ Hne));
    by rewrite lookup_insert_ne.
Qed.

(** X1.  While a circuit is open and less than [resetTimeoutMs] has passed
    since its last failure, [execute] throws [CircuitBreakerError], does
    not call the operation, and leaves every record as it is. *)
Theorem open_circuit_rejects_without_calling {T E : Type}
    (id : string) (outcome : T + E) (config : option CircuitBreakerConfig)
    (now later : Z) (cs : circuits) :
  getState id cs = open ->
  now - lastFailureTime (fst (getStats id cs)) < resetTimeoutMs (effectiveConfig config) ->
  execute id outcome config now later cs = (inr (CircuitBreakerError id), false, cs).
Proof.
  intros St Hwait. unfold execute, isOpen.
  rewrite getStats_present by (rewrite St; discriminate).
  unfold getState in St. rewrite St.
  rewrite (proj2 (Z.leb_gt _ _)) by lia. reflexivity.
Qed.

Lemma open_circuit_rejects_without_calling_witness :
  execute (T := nat) (E := nat) "svc" (inl 1%nat) None 5 6
    (recordAll "svc" None [Failed 0; Failed 1; Failed 2; Failed 3; Failed 4] ∅)
  = (inr (CircuitBreakerError "svc"), false,
     recordAll "svc" None [Failed 0; Failed 1; Failed 2; Failed 3; Failed 4] ∅).
Proof.
  apply open_circuit_rejects_without_calling.
  - vm_compute. reflexivity.
  - vm_compute. reflexivity.
Defined.

(** X2.  Whatever [execute] does on one circuit, the record of every other
    circuit stays as it is. *)
Theorem execute_leaves_other_circuits {T E : Type}
    (id id' : string) (outcome : T + E) (config : option CircuitBreakerConfig)
    (now later : Z) (cs : circuits) :
  id <> id' ->
  snd (execute id outcome config now later cs) !! id' = cs !! id'.
Proof.
  intros Hne. unfold execute.
  pose proof (isOpen_other id id' config now cs Hne) as H.
  destruct (isOpen id config now cs) as [[|] cs']; cbn in H |- *; [done|].
  destruct outcome; cbn.
  - by rewrite recordSuccess_other.
  - by rewrite recordFailure_other.
Qed.

Lemma execute_leaves_other_circuits_witness :
  snd (execute (T := nat) (E := nat) "a" (inr 3%nat) None 5 6
         (recordAll "b" None [Failed 0] ∅)) !! "b"
  = recordAll "b" None [Failed 0] ∅ !! "b".
Proof. apply execute_leaves_other_circuits. discriminate. Defined.

(** X3.  A success reported for an open or half-open circuit closes it at once,
    whether or not the reset timeout has passed, and sets the failure
    counter to 0; the circuit then admits calls. *)
Theorem success_closes_open_circuit
    (id : string) (config : option CircuitBreakerConfig) (now later : Z) (cs : circuits) :
  getState id cs <> closed ->
  getState id (recordSuccess id now cs) = closed /\
  failureCount id (recordSuccess id now cs) = 0 /\
  fst (isOpen id config later (recordSuccess id now cs)) = false.
Proof.
  intros St.
  assert (H : getState id (recordSuccess id now cs) = closed /\
              failureCount id (recordSuccess id now cs) = 0).
  { unfold getState, failureCount in *. rewrite recordSuccess_stats. cbn.
    destruct (state (getStats id cs).1); done. }
  destruct H as [Hc Hf]. split; [done|]. split; [done|].
  unfold isOpen. unfold getState in Hc.
  destruct (getStats id (recordSuccess id now cs)) as [s cs']. cbn in Hc.
  by rewrite Hc.
Qed.

Lemma success_closes_open_circuit_witness :
  getState "svc" (recordSuccess "svc" 6
    (recordAll "svc" None [Failed 0; Failed 1; Failed 2; Failed 3; Failed 4] ∅)) = closed.
Proof.
  destruct (success_closes_open_circuit "svc" None 6 7
    (recordAll "svc" None [Failed 0; Failed 1; Failed 2; Failed 3; Failed 4] ∅)) as [H _].
  - vm_compute. discriminate.
  - exact H.
Defined.

Lemma recordAll_app (id : string) (config : option CircuitBreakerConfig)
    (rs1 rs2 : list report) (cs : circuits) :
  recordAll id config (rs1 ++ rs2) cs = recordAll id config rs2 (recordAll id config rs1 cs).
Proof. unfold recordAll. apply fold_left_app. Qed.

Lemma failuresIn_all (rs : list report) :
  Forall (fun r => is_failure r = true) rs -> failuresIn rs = Z.of_nat (length rs).
Proof.
  unfold failuresIn. induction 1 as [|r rs Hr _ IH]; cbn; [done|].
  rewrite Hr. cbn. lia.
Qed.

(** X4.  A circuit that is closed with a failure counter of 0 (in particular
    one that was never used) is open after [failureThreshold] failures in
    a row, and still closed before the last of them. *)
Theorem failures_in_a_row_open_circuit
    (id : string) (config : option CircuitBreakerConfig) (rs : list report)
    (now : Z) (cs : circuits) :
  getState id cs = closed ->
  failureCount id cs = 0 ->
  Forall (fun r => is_failure r = true) rs ->
  Z.of_nat (length rs) + 1 = failureThreshold (effectiveConfig config) ->
  getState id (recordAll id config rs cs) = closed /\
  getState id (recordAll id config (rs ++ [Failed now]) cs) = open /\
  failureCount id (recordAll id config (rs ++ [Failed now]) cs)
    = failureThreshold (effectiveConfig config).
Proof.
  intros St Hzero Hall Hlen.
  pose proof (failuresIn_all rs Hall) as Hf.
  destruct (recordAll_closed_below id config rs cs St) as [St' Hc]; [lia|].
  split; [done|]. rewrite recordAll_app. cbn [recordAll fold_left record].
  unfold getState, failureCount in *. rewrite recordFailure_stats. cbn.
  fold (recordAll id config rs cs). rewrite St', Hc.
  rewrite (proj2 (Z.leb_le _ _)) by lia. split; [done|lia].
Qed.

Lemma failures_in_a_row_open_circuit_witness :
  getState "svc" (recordAll "svc" None
    ([Failed 0; Failed 1; Failed 2; Failed 3] ++ [Failed 4]) ∅) = open.
Proof.
  destruct (failures_in_a_row_open_circuit "svc" None
              [Failed 0; Failed 1; Failed 2; Failed 3] 4 ∅) as (_ & H & _).
  - reflexivity.
  - reflexivity.
  - repeat constructor.
  - reflexivity.
  - exact H.
Defined.

(** X5.  [forceOpen] does not touch [lastFailureTime]: once [resetTimeoutMs]
    has passed since the last recorded failure (for a circuit that never
    failed: once the clock is past [resetTimeoutMs]), the very next
    [isOpen] after [forceOpen] answers [false] and makes the circuit
    half-open. *)
Theorem forceOpen_lasts_until_reset_timeout
    (id : string) (config : option CircuitBreakerConfig) (now : Z) (cs : circuits) :
  resetTimeoutMs (effectiveConfig config) <= now - lastFailureTime (fst (getStats id cs)) ->
  getState id (forceOpen id cs) = open /\
  fst (isOpen id config now (forceOpen id cs)) = false /\
  getState id (snd (isOpen id config now (forceOpen id cs))) = half_open.
Proof.
  intros Hel.
  assert (Hs : fst (getStats id (forceOpen id cs)) = set_state open (fst (getStats id cs))).
  { unfold forceOpen, transitionToOpen.
    destruct (getStats id cs) as [s cs'] eqn:E. cbn [fst snd].
    assert (E' : getStats id cs' = (s, cs')).
    { unfold getStats in E |- *. destruct (cs !! id) eqn:L.
      - inversion E; subst. by rewrite L.
      - inversion E; subst. by rewrite lookup_insert_eq. }
    rewrite E'. by rewrite getStats_insert. }
  assert (St : getState id (forceOpen id cs) = open).
  { unfold getState. by rewrite Hs. }
  split; [exact St|].
  destruct (isOpen_elapsed id config now (forceOpen id cs) St) as [Ha Hb].
  { rewrite Hs. exact Hel. }
  split; [exact Ha|]. unfold getState. by rewrite Hb.
Qed.

Lemma forceOpen_lasts_until_reset_timeout_witness :
  fst (isOpen "svc" None 1700000000000 (forceOpen "svc" ∅)) = false.
Proof.
  destruct (forceOpen_lasts_until_reset_timeout "svc" None 1700000000000 ∅)
    as (_ & H & _).
  - vm_compute. discriminate.
  - exact H.
Defined.

End CircuitBreakerMore.

(** ** Request deduplication: waiters, falsy rejections, cancellation *)

Module RequestDeduplicatorMore.
Import RequestDeduplicator.

Lemma run_app (es1 es2 : list event) (d : deduplicator) :
  run (es1 ++ es2) d = run es2 (run es1 d).
Proof. unfold run. apply fold_left_app. Qed.

(** Calls for a pending key only add the callers to its resolvers. *)
Lemma run_waiters (key : string) (waiters : list nat) :
  forall (d : deduplicator) (request : PendingRequest),
    pendingRequests d !! key = Some request ->
    run (map (fun w => Call w key) waiters) d =
      {| pendingRequests :=
           <[key := {| promise_of := promise_of request;
                       timestamp := timestamp request;
                       resolvers := resolvers request ++ waiters |}]> (pendingRequests d);
         microtasks := microtasks d;
         invocations := invocations d;
         delivered := delivered d |}.
Proof.
  induction waiters as [|w waiters IH]; intros d request Hreq.
  - cbn. rewrite app_nil_r. destruct d, request; cbn in *.
    f_equal. symmetry. by apply insert_id.
  - cbn [map]. change (run (Call w key :: ?es) d) with (run es (step d (Call w key))).
    cbn [step]. unfold execute_call, checkAndWait. rewrite Hreq.
    erewrite IH; [|cbn; apply lookup_insert_eq].
    cbn. rewrite insert_insert_eq, <- app_assoc. reflexivity.
Qed.

(** The state after a first call and the calls of the waiters. *)
Lemma run_firstThenWaiters (owner : nat) (key : string) (now : Z)
    (waiters : list nat) (d : deduplicator) :
  pendingRequests d !! key = None ->
  microtasks d = [] ->
  run (firstThenWaiters owner key now waiters) d =
    {| pendingRequests :=
         <[key := {| promise_of := length (invocations d); timestamp := now;
                     resolvers := waiters |}]> (pendingRequests d);
       microtasks := [];
       invocations := invocations d ++
         [{| inv_caller := owner; inv_key := key; inv_registered := true |}];
       delivered := delivered d |}.
Proof.
  intros Hkey Hq. unfold firstThenWaiters. rewrite run_app.
  assert (H1 : run [Call owner key; Tick now] d =
    {| pendingRequests :=
         <[key := {| promise_of := length (invocations d); timestamp := now;
                     resolvers := [] |}]> (pendingRequests d);
       microtasks := [];
       invocations := invocations d ++
         [{| inv_caller := owner; inv_key := key; inv_registered := true |}];
       delivered := delivered d |}).
  { cbn. unfold execute_call, checkAndWait. rewrite Hkey. unfold tick. cbn.
    rewrite Hq. cbn. unfold execute_resume, registerRequest. cbn. by rewrite Hkey. }
  rewrite H1. erewrite run_waiters; [|cbn; apply lookup_insert_eq].
  cbn. by rewrite insert_insert_eq.
Qed.

(** The state after the operation of the first call has settled. *)
Lemma run_first_waiters_settle (owner : nat) (key : string) (now : Z)
    (waiters : list nat) (s : settlement) (d : deduplicator) :
  pendingRequests d !! key = None ->
  microtasks d = [] ->
  run (firstThenWaiters owner key now waiters ++ [Settle (length (invocations d)) s]) d =
    {| pendingRequests := pendingRequests d;
       microtasks := [];
       invocations := invocations d ++
         [{| inv_caller := owner; inv_key := key; inv_registered := true |}];
       delivered := delivered d ++ (owner, s) ::
         (if notifies s then map (fun w => (w, s)) waiters else []) |}.
Proof.
  intros Hkey Hq. rewrite run_app, (run_firstThenWaiters _ _ _ _ _ Hkey Hq).
  cbn [run fold_left step]. unfold settle. cbn [invocations].
  rewrite lookup_app_r, Nat.sub_diag by lia. cbn [lookup list_lookup inv_registered inv_caller inv_key].
  unfold completeRequest. cbn [pendingRequests delivered microtasks invocations].
  rewrite lookup_insert_eq. cbn [resolvers].
  rewrite delete_insert_eq, (delete_id _ _ Hkey), <- app_assoc.
  f_equal. cbn [app]. f_equal. f_equal. by destruct s as [|? []].
Qed.



(** X7.  When the operation rejects with a falsy reason (such as [undefined]),
    [completeRequest] takes neither branch: the first caller gets the
    rejection, the waiting callers are never settled, and the request is
    deleted, so nothing can settle them later. *)
Theorem falsy_rejection_strands_waiters (owner : nat) (key : string) (now : Z)
    (waiters : list nat) (error : nat) (d : deduplicator) :
  pendingRequests d !! key = None ->
  microtasks d = [] ->
  delivered
    (run (firstThenWaiters owner key now waiters ++
          [Settle (length (invocations d)) (RejectedWith error false)]) d)
    = delivered d ++ [(owner, RejectedWith error false)] /\
  pendingRequests
    (run (firstThenWaiters owner key now waiters ++
          [Settle (length (invocations d)) (RejectedWith error false)]) d)
    = pendingRequests d.
Proof.
  intros Hkey Hq. rewrite (run_first_waiters_settle _ _ _ _ _ _ Hkey Hq). done.
Qed.

Lemma falsy_rejection_strands_waiters_witness :
  outcomeOf 2
    (run (firstThenWaiters 1 "k" 0 [2%nat] ++ [Settle 0 (RejectedWith 7 false)]) empty)
    = None.
Proof.
  destruct (falsy_rejection_strands_waiters 1 "k" 0 [2%nat] 7 empty) as [H _];
    [reflexivity|reflexivity|].
  change (length (invocations empty)) with 0%nat in H.
  unfold outcomeOf. rewrite H. reflexivity.
Defined.

(** X8.  [cancelRequest] on a pending key rejects every waiting caller with
    its error and deletes the request; the first caller is not settled by
    it, and gets the settlement of the operation when that arrives, which
    then reaches no one else.  On a key that is not pending it returns
    [false] and changes nothing. *)
Theorem cancelRequest_rejects_waiters_only (owner : nat) (key : string) (now : Z)
    (waiters : list nat) (error : nat) (s : settlement) (d : deduplicator) :
  pendingRequests d !! key = None ->
  microtasks d = [] ->
  cancelRequest key error d = (false, d) /\
  fst (cancelRequest key error (run (firstThenWaiters owner key now waiters) d)) = true /\
  delivered (snd (cancelRequest key error (run (firstThenWaiters owner key now waiters) d)))
    = delivered d ++ map (fun w => (w, RejectedWith error true)) waiters /\
  isPending key
    (snd (cancelRequest key error (run (firstThenWaiters owner key now waiters) d))) = false /\
  delivered
    (settle (length (invocations d)) s
       (snd (cancelRequest key error (run (firstThenWaiters owner key now waiters) d))))
    = delivered d ++ map (fun w => (w, RejectedWith error true)) waiters ++ [(owner, s)].
Proof.
  intros Hkey Hq. split.
  { unfold cancelRequest. by rewrite Hkey. }
  rewrite (run_firstThenWaiters _ _ _ _ _ Hkey Hq).
  unfold cancelRequest. cbn [pendingRequests]. rewrite lookup_insert_eq.
  cbn [fst snd delivered resolvers]. split; [done|]. split; [done|]. split.
  { unfold isPending. cbn [pendingRequests]. rewrite lookup_delete_eq.
    apply bool_decide_eq_false. by intros [? ?]. }
  unfold settle. cbn [invocations].
  rewrite lookup_app_r, Nat.sub_diag by lia.
  cbn [lookup list_lookup inv_registered inv_caller inv_key].
  unfold completeRequest. cbn [pendingRequests]. rewrite lookup_delete_eq.
  cbn [delivered]. by rewrite <- app_assoc.
Qed.

Lemma cancelRequest_rejects_waiters_only_witness :
  delivered
    (settle 0 (Fulfilled 10)
       (snd (cancelRequest "k" 99 (run (firstThenWaiters 1 "k" 0 [2%nat; 3%nat]) empty))))
    = [(2%nat, RejectedWith 99 true); (3%nat, RejectedWith 99 true); (1%nat, Fulfilled 10)].
Proof.
  destruct (cancelRequest_rejects_waiters_only 1 "k" 0 [2%nat; 3%nat] 99 (Fulfilled 10) empty)
    as (_ & _ & _ & _ & H); [reflexivity|reflexivity|exact H].
Defined.

End RequestDeduplicatorMore.

(** ** Rate limiting: bucket invariants, reset time, reset *)

Module RateLimiterMore.
Import RateLimiter RateLimiterProps.

(** The bucket of a key after one [checkLimit]. *)
Lemma checkLimit_bucket (key : string) (config : IRateLimitConfig) (n now : Z)
    (bs : buckets) :
  snd (checkLimit key config n now bs) !! key =
    Some (snd (match strategy config with
               | sliding =>
                   checkSlidingWindow (default (freshBucket config now) (bs !! key))
                     config n now
               | fixed =>
                   checkFixedWindow (default (freshBucket config now) (bs !! key))
                     config n now
               end)).
Proof.
  destruct (bs !! key) as [b|] eqn:Hb.
  - rewrite (checkLimit_present _ _ _ _ _ _ Hb). cbn [default].
    destruct (strategy config); cbn [snd]; apply lookup_insert_eq.
  - rewrite (checkLimit_absent _ _ _ _ _ Hb).
    rewrite (checkLimit_present _ _ _ _ _ (freshBucket config now))
      by apply lookup_insert_eq.
    cbn [default]. destruct (strategy config); cbn [snd]; apply lookup_insert_eq.
Qed.

(** The fixed-window bucket keeps [tokens] within the quota and
    [requestCount] equal to what has been taken from it. *)
Lemma checkFixedWindow_invariant (config : IRateLimitConfig) (n now : Z)
    (b : RateLimitBucket) :
  0 <= maxRequests config -> 0 <= n ->
  0 <= tokens b <= maxRequests config /\ requestCount b = maxRequests config - tokens b ->
  0 <= tokens (snd (checkFixedWindow b config n now)) <= maxRequests config /\
  requestCount (snd (checkFixedWindow b config n now))
    = maxRequests config - tokens (snd (checkFixedWindow b config n now)).
Proof.
  intros Hmax Hn [Ht Hc]. unfold checkFixedWindow, refillFixedWindow.
  destruct (windowMs config <=? now - windowStart b); cbn [tokens];
    match goal with |- context [?x <=? ?y] => destruct (Z.leb_spec x y) end;
    cbn; lia.
Qed.

(** The step of [checkLimit] on the bucket of the key. *)
Lemma checkAll_cons (key : string) (config : IRateLimitConfig) (n now : Z)
    (calls : list (Z * Z)) (bs : buckets) :
  checkAll key config ((n, now) :: calls) bs
    = checkAll key config calls (snd (checkLimit key config n now bs)).
Proof. reflexivity. Qed.

(** Once a key has a bucket it keeps one. *)
Lemma checkAll_keeps_bucket (key : string) (config : IRateLimitConfig)
    (calls : list (Z * Z)) :
  forall bs : buckets,
    is_Some (bs !! key) -> is_Some (checkAll key config calls bs !! key).
Proof.
  induction calls as [|[n now] calls IH]; intros bs Hb; [exact Hb|].
  rewrite checkAll_cons. apply IH. rewrite checkLimit_bucket. eauto.
Qed.

(** A property of fixed-window buckets that holds for a new bucket and is
    kept by every check holds after any sequence of checks. *)
Lemma checkAll_fixed_invariant (P : RateLimitBucket -> Prop)
    (key : string) (config : IRateLimitConfig) :
  strategy config = fixed ->
  (forall now, P (freshBucket config now)) ->
  forall calls : list (Z * Z),
    (forall b n now, In (n, now) calls -> P b ->
       P (snd (checkFixedWindow b config n now))) ->
    forall bs : buckets,
      (forall b, bs !! key = Some b -> P b) ->
      forall b, checkAll key config calls bs !! key = Some b -> P b.
Proof.
  intros Hs Hfresh calls. induction calls as [|[n now] calls IH];
    intros Hstep bs Hinv; [exact Hinv|].
  rewrite checkAll_cons. apply IH.
  - intros b n' now' Hin. apply Hstep. by right.
  - intros b Hb. rewrite checkLimit_bucket, Hs in Hb.
    inversion Hb; subst b. apply Hstep; [by left|].
    destruct (bs !! key) as [b0|] eqn:Hb0; cbn [default]; [by apply Hinv|apply Hfresh].
Qed.

(** X9.  Fixed strategy: after any calls of [checkLimit] on a key that had no
    bucket, each for a non-negative number of tokens, the bucket holds
    between 0 and [maxRequests] tokens and [requestCount], the tokens
    admitted in the current window, is [maxRequests] minus what is left:
    no window ever admits more than the quota. *)
Theorem fixed_window_never_exceeds_quota (key : string) (config : IRateLimitConfig)
    (calls : list (Z * Z)) (bs : buckets) :
  strategy config = fixed ->
  0 <= maxRequests config ->
  Forall (fun c => 0 <= fst c) calls ->
  calls <> [] ->
  bs !! key = None ->
  exists b : RateLimitBucket,
    checkAll key config calls bs !! key = Some b /\
    0 <= tokens b <= maxRequests config /\
    0 <= requestCount b <= maxRequests config /\
    requestCount b = maxRequests config - tokens b.
Proof.
  intros Hs Hmax Hcalls Hne Hkey.
  destruct calls as [|[n now] calls]; [done|].
  destruct (checkAll_keeps_bucket key config calls
              (snd (checkLimit key config n now bs))) as [b Hb].
  { rewrite checkLimit_bucket. eauto. }
  exists b. rewrite checkAll_cons. split; [exact Hb|].
  cut (0 <= tokens b <= maxRequests config /\
       requestCount b = maxRequests config - tokens b); [lia|].
  rewrite <- checkAll_cons in Hb. revert b Hb.
  apply (checkAll_fixed_invariant
           (fun b => 0 <= tokens b <= maxRequests config /\
                     requestCount b = maxRequests config - tokens b)
           key config Hs).
  - intros t. cbn. lia.
  - intros b0 n0 now0 Hin Hinv. apply checkFixedWindow_invariant; [done| |done].
    rewrite Forall_forall in Hcalls. apply (Hcalls (n0, now0)).
    by apply list_elem_of_In.
  - intros b0 Hb0. by rewrite Hkey in Hb0.
Qed.

Lemma fixed_window_never_exceeds_quota_witness :
  exists b : RateLimitBucket,
    checkAll "k" {| maxRequests := 3; windowMs := 1000; strategy := fixed |}
      [(2, 0); (2, 10); (1, 20)] ∅ !! "k" = Some b /\
    0 <= requestCount b <= 3.
Proof.
  destruct (fixed_window_never_exceeds_quota "k"
              {| maxRequests := 3; windowMs := 1000; strategy := fixed |}
              [(2, 0); (2, 10); (1, 20)] ∅) as (b & Hb & _ & Hc & _).
  - reflexivity.
  - cbn. lia.
  - repeat constructor; cbn; lia.
  - discriminate.
  - apply lookup_empty.
  - exists b. split; [exact Hb|exact Hc].
Defined.

(** One sliding-window check at a clock reading not before the last
    refill keeps the count within the quota. *)
Lemma checkSlidingWindow_invariant (config : IRateLimitConfig) (n now : Z)
    (b : RateLimitBucket) :
  0 < windowMs config -> 0 <= maxRequests config -> 0 <= n ->
  lastRefill b <= now ->
  0 <= requestCount b <= maxRequests config ->
  0 <= requestCount (snd (checkSlidingWindow b config n now)) <= maxRequests config /\
  lastRefill (snd (checkSlidingWindow b config n now)) <= now.
Proof.
  intros Hw Hmax Hn Hclock Hc.
  assert (Hr : 0 <= (now - lastRefill b) * maxRequests config / windowMs config).
  { apply Z.div_pos; [|lia]. apply Z.mul_nonneg_nonneg; lia. }
  unfold checkSlidingWindow, refillSlidingWindow.
  destruct (windowMs config <=? now - lastRefill b); cbn [requestCount lastRefill].
  - destruct (Z.leb_spec (0 + n) (maxRequests config)); cbn; lia.
  - match goal with |- context [?x <=? ?y] => destruct (Z.leb_spec x y) end;
      cbn [snd requestCount lastRefill];
      destruct (0 <? (now - lastRefill b) * maxRequests config / windowMs config); lia.
Qed.

Lemma checkAll_sliding_invariant (key : string) (config : IRateLimitConfig) :
  strategy config = sliding ->
  0 < windowMs config -> 0 <= maxRequests config ->
  forall (calls : list (Z * Z)) (bs : buckets) (b0 : RateLimitBucket),
    bs !! key = Some b0 ->
    0 <= requestCount b0 <= maxRequests config ->
    Forall (fun c => 0 <= fst c /\ lastRefill b0 <= snd c) calls ->
    StronglySorted Z.le (map snd calls) ->
    forall b, checkAll key config calls bs !! key = Some b ->
      0 <= requestCount b <= maxRequests config.
Proof.
  intros Hs Hw Hmax calls. induction calls as [|[n now] calls IH];
    intros bs b0 Hb0 Hc Hcalls Hsorted b Hb.
  - cbn in Hb. rewrite Hb0 in Hb. by inversion Hb; subst.
  - rewrite checkAll_cons in Hb.
    apply Forall_cons in Hcalls as [[Hn Hclock] Hcalls]. cbn in Hn, Hclock.
    cbn [map] in Hsorted. apply StronglySorted_inv in Hsorted as [Hsorted Hle].
    destruct (checkSlidingWindow_invariant config n now b0) as [Hc1 Hl1]; try done.
    eapply (IH _ (snd (checkSlidingWindow b0 config n now))); [| |..|exact Hb]; try done.
    + rewrite checkLimit_bucket, Hs, Hb0. reflexivity.
    + rewrite Forall_forall in Hcalls. rewrite Forall_forall in Hle.
      apply Forall_forall. intros [n' now'] Hin.
      destruct (Hcalls _ Hin) as [Hn' _]. cbn in *. split; [done|].
      assert (now <= now'); [|lia].
      apply Hle. apply list_elem_of_In. apply in_map_iff. exists (n', now').
      split; [done|]. by apply list_elem_of_In.
Qed.

(** X10.  Sliding strategy, with a positive window: after any calls of
    [checkLimit] on a key that had no bucket, each for a non-negative
    number of tokens and at clock readings that do not go back, the count
    of the bucket lies between 0 and [maxRequests]. *)
Theorem sliding_window_count_within_quota (key : string) (config : IRateLimitConfig)
    (n now : Z) (calls : list (Z * Z)) (bs : buckets) :
  strategy config = sliding ->
  0 < windowMs config ->
  0 <= maxRequests config ->
  Forall (fun c => 0 <= fst c) ((n, now) :: calls) ->
  StronglySorted Z.le (map snd ((n, now) :: calls)) ->
  bs !! key = None ->
  exists b : RateLimitBucket,
    checkAll key config ((n, now) :: calls) bs !! key = Some b /\
    0 <= requestCount b <= maxRequests config.
Proof.
  intros Hs Hw Hmax Hcalls Hsorted Hkey.
  destruct (checkAll_keeps_bucket key config calls
              (snd (checkLimit key config n now bs))) as [b Hb].
  { rewrite checkLimit_bucket. eauto. }
  exists b. rewrite checkAll_cons. split; [exact Hb|].
  apply Forall_cons in Hcalls as [Hn Hcalls]. cbn in Hn.
  cbn [map] in Hsorted. apply StronglySorted_inv in Hsorted as [Hsorted Hle].
  destruct (checkSlidingWindow_invariant config n now (freshBucket config now))
    as [Hc1 Hl1]; try done; [cbn; lia..|].
  eapply (checkAll_sliding_invariant key config Hs Hw Hmax calls _
            (snd (checkSlidingWindow (freshBucket config now) config n now)));
    [| | | |exact Hb]; try done.
  - rewrite checkLimit_bucket, Hs, Hkey. reflexivity.
  - rewrite Forall_forall in Hcalls. rewrite Forall_forall in Hle.
    apply Forall_forall. intros [n' now'] Hin.
    pose proof (Hcalls _ Hin) as Hn'. cbn in *. split; [done|].
    assert (now <= now'); [|lia].
    apply Hle. apply list_elem_of_In. apply in_map_iff. exists (n', now').
    split; [done|]. by apply list_elem_of_In.
Qed.

Lemma sliding_window_count_within_quota_witness :
  exists b : RateLimitBucket,
    checkAll "k" {| maxRequests := 3; windowMs := 1000; strategy := sliding |}
      [(2, 0); (2, 400); (1, 900)] ∅ !! "k" = Some b /\
    0 <= requestCount b <= 3.
Proof.
  apply (sliding_window_count_within_quota "k"
           {| maxRequests := 3; windowMs := 1000; strategy := sliding |}
           2 0 [(2, 400); (1, 900)] ∅).
  - reflexivity.
  - cbn. lia.
  - cbn. lia.
  - repeat constructor; cbn; lia.
  - repeat constructor; cbn; lia.
  - apply lookup_empty.
Defined.

(** X11.  With a positive window, the [resetTime] that a [RateLimitError]
    reports lies strictly after the clock reading of the rejected call,
    under both strategies and whatever the bucket held. *)
Theorem rejection_reset_time_is_ahead (key : string) (config : IRateLimitConfig)
    (n now later : Z) (bs : buckets) (e : RateLimitError) :
  0 < windowMs config ->
  fst (enforce key config n now later bs) = inr e ->
  now < err_resetTime e /\
  err_limit e = maxRequests config /\ err_key e = key.
Proof.
  intros Hw.
  assert (Hgen : forall bs b, bs !! key = Some b ->
            fst (enforce key config n now later bs) = inr e ->
            now < err_resetTime e /\
            err_limit e = maxRequests config /\ err_key e = key).
  { clear bs. intros bs b Hb. destruct (strategy config) eqn:Hs.
    - rewrite (enforce_sliding_present _ _ _ _ _ _ _ Hs Hb).
      destruct (checkSlidingWindow b config n now) as [[|] b'] eqn:E; cbn [fst snd];
        [discriminate|].
      intros He. inversion He; subst e; clear He. cbn. split; [|done].
      unfold checkSlidingWindow, refillSlidingWindow in E.
      destruct (Z.leb_spec (windowMs config) (now - lastRefill b));
        cbn [requestCount lastRefill] in E;
        match type of E with context [?x <=? ?y] => destruct (x <=? y) end;
        inversion E; subst b'; cbn; [lia|].
      destruct (0 <? (now - lastRefill b) * maxRequests config / windowMs config); lia.
    - rewrite (enforce_fixed_present _ _ _ _ _ _ _ Hs Hb).
      destruct (checkFixedWindow b config n now) as [[|] b'] eqn:E; cbn [fst snd];
        [discriminate|].
      intros He. inversion He; subst e; clear He. cbn. split; [|done].
      unfold checkFixedWindow, refillFixedWindow in E.
      destruct (Z.leb_spec (windowMs config) (now - windowStart b));
        cbn [tokens] in E;
        match type of E with context [?x <=? ?y] => destruct (x <=? y) end;
        inversion E; subst b'; cbn; lia. }
  destruct (bs !! key) as [b|] eqn:Hb.
  - by apply (Hgen bs b).
  - rewrite (enforce_absent _ _ _ _ _ _ Hb).
    apply (Hgen _ (freshBucket config now)). apply lookup_insert_eq.
Qed.

Lemma rejection_reset_time_is_ahead_witness :
  exists e : RateLimitError,
    fst (enforce "k" {| maxRequests := 0; windowMs := 1000; strategy := sliding |}
           1 5 5 ∅) = inr e /\
    5 < err_resetTime e.
Proof.
  eexists. split; [vm_compute; reflexivity|].
  eapply (rejection_reset_time_is_ahead "k"
            {| maxRequests := 0; windowMs := 1000; strategy := sliding |} 1 5 5 ∅).
  - cbn. lia.
  - vm_compute. reflexivity.
Defined.

(** X12.  After [reset(key)] the key has its full quota again: the next
    [checkLimit] admits a request for [n] tokens exactly when [n] is at
    most [maxRequests], under both strategies. *)
Theorem reset_restores_full_quota (key : string) (config : IRateLimitConfig)
    (n now : Z) (bs : buckets) :
  fst (checkLimit key config n now (snd (reset key bs))) = (n <=? maxRequests config).
Proof.
  unfold reset. cbn [snd].
  rewrite (checkLimit_absent _ _ _ _ _ (lookup_delete_eq bs key)).
  rewrite (checkLimit_present _ _ _ _ _ (freshBucket config now))
    by apply lookup_insert_eq.
  destruct (strategy config); cbn [fst].
  - unfold checkSlidingWindow, refillSlidingWindow, freshBucket.
    cbn [lastRefill requestCount]. rewrite Z.sub_diag.
    destruct (windowMs config <=? 0); cbn [requestCount].
    + rewrite Z.add_0_l. by destruct (n <=? maxRequests config).
    + rewrite Z.mul_0_l, Zdiv_0_l. cbn [Z.ltb Z.compare Z.max Z.sub Z.opp Z.add].
      rewrite ?Z.add_0_l. by destruct (n <=? maxRequests config).
  - unfold checkFixedWindow, refillFixedWindow, freshBucket.
    cbn [windowStart tokens]. rewrite Z.sub_diag.
    destruct (windowMs config <=? 0); cbn [tokens];
      by destruct (n <=? maxRequests config).
Qed.

End RateLimiterMore.

(** ** Retries: exhausted attempts, first success, negative [max] *)

Module RetryManagerMore.
Import RetryManager RetryManagerProps.



(** X14.  When attempt [k <= max] is the first to succeed and every error before
    it is retried, [execute] returns the value of attempt [k] after
    exactly [k + 1] calls of the operation. *)
Theorem first_success_is_returned {T E : Type}
    (operation : Z -> T + E) (config : IRetryConfig)
    (shouldRetry : option (E -> bool)) (id : string) (retryAttempts : gmap string Z)
    (k : nat) (r : T) :
  Z.of_nat k <= max config ->
  operation (Z.of_nat k) = inl r ->
  (forall j : nat, (j < k)%nat ->
     exists e, operation (Z.of_nat j) = inr e /\ abortsOn shouldRetry e = false) ->
  fst (fst (execute operation config shouldRetry id retryAttempts)) = inl r /\
  invocations (snd (fst (execute operation config shouldRetry id retryAttempts)))
    = map Z.of_nat (seq 0 (S k)).
Proof.
  intros Hk Hok Hbefore.
  destruct (attempts_spec operation config shouldRetry
              (Z.to_nat (max config + 1)) 0 None [] 0) as (n & Hn & Hd & Hprev & Hlast);
    [lia|lia|].
  unfold execute.
  destruct (attempts operation config shouldRetry (Z.to_nat (max config + 1)) 0 None [] 0)
    as [[outcome done] stored].
  cbn [fst snd] in *. subst done. cbn [app].
  assert (Hnk : n = S k).
  { destruct (Nat.lt_trichotomy (n - 1) k) as [Hlt|[Heq|Hgt]]; [|lia|].
    - destruct (Hbefore (n - 1)%nat Hlt) as (e & He & Hab).
      replace (0 + Z.of_nat n - 1) with (Z.of_nat (n - 1)) in Hlast by lia.
      rewrite He in Hlast. destruct Hlast as [_ [?|?]]; [congruence|lia].
    - destruct (Hprev k Hgt) as (e & He & _).
      rewrite Z.add_0_l in He. congruence. }
  subst n. replace (0 + Z.of_nat (S k) - 1) with (Z.of_nat k) in Hlast by lia.
  rewrite Hok in Hlast. split; [exact Hlast|].
  rewrite invocations_scheduleFrom. apply map_ext. intros j. lia.
Qed.

Lemma first_success_is_returned_witness :
  fst (fst (execute (T := nat) (E := nat)
              (fun attempt => if attempt <? 2 then inr 7%nat else inl 9%nat)
              {| max := 3; strategy := linear; backoffMs := Some 50 |} None "op" ∅))
    = inl 9%nat.
Proof.
  destruct (first_success_is_returned (T := nat) (E := nat)
              (fun attempt => if attempt <? 2 then inr 7%nat else inl 9%nat)
              {| max := 3; strategy := linear; backoffMs := Some 50 |} None "op" ∅
              2 9%nat) as [H _].
  - cbn. lia.
  - reflexivity.
  - intros j Hj. exists 7%nat.
    destruct j as [|[|j]]; [done|done|lia].
  - exact H.
Defined.

(** X15.  With a negative [max] the loop body never runs: the operation is not
    called, nothing is slept, and [execute] throws [lastError], which is
    still [undefined]. *)
Theorem negative_max_never_calls_operation {T E : Type}
    (operation : Z -> T + E) (config : IRetryConfig)
    (shouldRetry : option (E -> bool)) (id : string) (retryAttempts : gmap string Z) :
  max config < 0 ->
  fst (execute operation config shouldRetry id retryAttempts) = (inr None, []).
Proof.
  intros Hneg. unfold execute.
  replace (Z.to_nat (max config + 1)) with O by lia. reflexivity.
Qed.

Lemma negative_max_never_calls_operation_witness :
  fst (execute (T := nat) (E := nat) (fun _ => inl 1%nat)
         {| max := -1; strategy := fixed; backoffMs := None |} None "op" ∅)
    = (inr None, []).
Proof. apply negative_max_never_calls_operation. cbn. lia. Defined.

End RetryManagerMore.

(** ** State store: bounds, eviction order, deleted snapshots *)

Module StateStoreMore.
Import Json StateStore StateStoreProps.

Lemma addToHistory_bounded (event : IStateEvent) (cfg : StateStoreConfig)
    (h : list IStateEvent) :
  Z.of_nat (length h) <= maxHistorySize cfg ->
  Z.of_nat (length (addToHistory event cfg h)) <= maxHistorySize cfg.
Proof.
  intros H. rewrite addToHistory_length.
  destruct (Z.ltb_spec (Z.of_nat (length h)) (maxHistorySize cfg)); lia.
Qed.

Lemma snap_set_keys (id : string) (sn : StateSnapshot) (l : list (string * StateSnapshot)) :
  map fst (snap_set id sn l) =
    if bool_decide (id ∈ map fst l) then map fst l else map fst l ++ [id].
Proof.
  induction l as [|[k sn'] l IH]; cbn; [done|].
  destruct (String.eqb_spec id k) as [->|Hne]; cbn.
  - rewrite bool_decide_eq_true_2 by set_solver. done.
  - rewrite IH. destruct (bool_decide (id ∈ map fst l)) eqn:E.
    + apply bool_decide_eq_true in E. rewrite bool_decide_eq_true_2 by set_solver. done.
    + apply bool_decide_eq_false in E. rewrite bool_decide_eq_false_2 by set_solver. done.
Qed.

Lemma snap_set_NoDup (id : string) (sn : StateSnapshot) (l : list (string * StateSnapshot)) :
  NoDup (map fst l) -> NoDup (map fst (snap_set id sn l)).
Proof.
  intros Hnd. rewrite snap_set_keys. destruct (bool_decide (id ∈ map fst l)) eqn:E; [done|].
  apply bool_decide_eq_false in E. apply NoDup_app. split; [done|]. split.
  - intros x Hx Hin. apply list_elem_of_singleton in Hin. by subst.
  - apply NoDup_singleton.
Qed.

Lemma snap_set_length (id : string) (sn : StateSnapshot) (l : list (string * StateSnapshot)) :
  (length (snap_set id sn l) <= S (length l))%nat.
Proof. induction l as [|[k sn'] l IH]; cbn; [lia|]. destruct (String.eqb id k); cbn; lia. Qed.

Lemma snap_delete_keys (id : string) (l : list (string * StateSnapshot)) :
  map fst (snap_delete id l) ⊆ map fst l.
Proof.
  induction l as [|[k sn'] l IH]; cbn; [done|].
  destruct (String.eqb id k); cbn; set_solver.
Qed.

Lemma snap_delete_NoDup (id : string) (l : list (string * StateSnapshot)) :
  NoDup (map fst l) -> NoDup (map fst (snap_delete id l)).
Proof.
  induction l as [|[k sn'] l IH]; cbn; [done|]. intros Hnd.
  apply NoDup_cons in Hnd as [Hk Hnd].
  destruct (String.eqb id k); cbn; [done|].
  apply NoDup_cons. split; [|by apply IH].
  intros Hin. apply Hk. by apply (snap_delete_keys id l).
Qed.

Lemma snap_delete_length (id : string) (l : list (string * StateSnapshot)) :
  (length (snap_delete id l) <= length l)%nat.
Proof. induction l as [|[k sn'] l IH]; cbn; [lia|]. destruct (String.eqb id k); cbn; lia. Qed.

Lemma snap_delete_present_length (id : string) (l : list (string * StateSnapshot)) :
  id ∈ map fst l -> S (length (snap_delete id l)) = length l.
Proof.
  induction l as [|[k sn'] l IH]; cbn; [by intros ?%elem_of_nil|].
  destruct (String.eqb_spec id k) as [->|Hne]; cbn; [done|].
  intros Hin. apply elem_of_cons in Hin as [?|Hin]; [done|]. by rewrite IH.
Qed.

(** The oldest entry is an entry of the map. *)
Lemma oldestFrom_elem (l : list (string * StateSnapshot)) :
  forall best : string * Z,
    oldestFrom best l = fst best \/ oldestFrom best l ∈ map fst l.
Proof.
  induction l as [|[k sn] l IH]; intros best; cbn; [by left|].
  destruct (snap_timestamp sn <? snd best).
  - destruct (IH (k, snap_timestamp sn)) as [->|?]; right; set_solver.
  - destruct (IH best) as [->|?]; [by left|right; set_solver].
Qed.

Lemma oldestSnapshot_elem (l : list (string * StateSnapshot)) (k : string) :
  oldestSnapshot l = Some k -> k ∈ map fst l.
Proof.
  destruct l as [|[k0 sn] l]; cbn; [done|]. intros [= <-].
  destruct (oldestFrom_elem l (k0, snap_timestamp sn)) as [->|?]; set_solver.
Qed.

Lemma createSnapshot_limits (id : string) (now : Z) (s : store) :
  Z.of_nat (length (snapshots s)) <= maxSnapshotSize (config s) ->
  NoDup (map fst (snapshots s)) ->
  Z.of_nat (length (snapshots (createSnapshot id now s))) <= maxSnapshotSize (config s) /\
  NoDup (map fst (snapshots (createSnapshot id now s))).
Proof.
  intros Hlen Hnd. unfold createSnapshot. cbn [snapshots].
  set (sn := {| snap_id := id; snap_state := cloneDeep (currentState s);
                snap_timestamp := now |}).
  pose proof (snap_set_length id sn (snapshots s)) as Hset.
  pose proof (snap_set_NoDup id sn (snapshots s) Hnd) as Hnd'.
  destruct (Z.ltb_spec (maxSnapshotSize (config s))
              (Z.of_nat (length (snap_set id sn (snapshots s))))) as [Hfull|Hroom];
    [|split; [lia|done]].
  destruct (oldestSnapshot (snap_set id sn (snapshots s))) as [k|] eqn:Hold;
    [|split; [|done]].
  - pose proof (snap_delete_present_length k _ (oldestSnapshot_elem _ _ Hold)).
    split; [lia|by apply snap_delete_NoDup].
  - destruct (snap_set id sn (snapshots s)); [cbn in Hfull; lia|by destruct p].
Qed.

Section WithLodash.

Variable lodash_set : json -> string -> json -> json.
Variable lodash_unset : json -> string -> json.

(** X16.  The limits of the store are kept by every call: if the history holds
    at most [maxHistorySize] events, the snapshots are at most
    [maxSnapshotSize] and their ids are distinct, then the same is true
    after any sequence of [applyPatches], [createSnapshot],
    [restoreSnapshot], [deleteSnapshot] and [compactHistory] calls, and the
    configuration is unchanged.  A new store satisfies the condition. *)
Theorem store_stays_within_limits (cs : list command) (s : store) :
  Z.of_nat (length (history s)) <= maxHistorySize (config s) ->
  Z.of_nat (length (snapshots s)) <= maxSnapshotSize (config s) ->
  NoDup (map fst (snapshots s)) ->
  config (performAll lodash_set lodash_unset cs s) = config s /\
  Z.of_nat (length (history (performAll lodash_set lodash_unset cs s)))
    <= maxHistorySize (config s) /\
  Z.of_nat (length (snapshots (performAll lodash_set lodash_unset cs s)))
    <= maxSnapshotSize (config s) /\
  NoDup (map fst (snapshots (performAll lodash_set lodash_unset cs s))).
Proof.
  revert s. induction cs as [|c cs IH]; intros s Hh Hs Hnd; [done|].
  change (performAll lodash_set lodash_unset (c :: cs) s)
    with (performAll lodash_set lodash_unset cs (perform lodash_set lodash_unset s c)).
  assert (Hstep : config (perform lodash_set lodash_unset s c) = config s /\
            Z.of_nat (length (history (perform lodash_set lodash_unset s c)))
              <= maxHistorySize (config s) /\
            Z.of_nat (length (snapshots (perform lodash_set lodash_unset s c)))
              <= maxSnapshotSize (config s) /\
            NoDup (map fst (snapshots (perform lodash_set lodash_unset s c)))).
  { destruct c as [ps now|id now|id now|id|keep]; cbn [perform].
    - unfold applyPatches. destruct ps; [done|]. cbn [generateEventId].
      destruct (generateChecksumThrows _ || generateChecksumThrows _);
        cbn [config history snapshots]; [done|].
      split; [done|]. split; [by apply addToHistory_bounded|done].
    - destruct (createSnapshot_limits id now s Hs Hnd). done.
    - unfold restoreSnapshot. destruct (snap_get id (snapshots s)); [|done].
      cbn [default config history snapshots generateEventId].
      split; [done|]. split; [by apply addToHistory_bounded|done].
    - cbn. split; [done|]. split; [done|]. split.
      + pose proof (snap_delete_length id (snapshots s)). lia.
      + by apply snap_delete_NoDup.
    - unfold compactHistory.
      destruct (Z.of_nat (length (history s)) <=? default 100 keep); [done|].
      cbn [config history snapshots]. split; [done|]. split; [|done].
      rewrite length_drop. lia. }
  destruct Hstep as (Hc & Hh' & Hs' & Hnd').
  destruct (IH (perform lodash_set lodash_unset s c)) as (Hc2 & Hh2 & Hs2 & Hnd2);
    rewrite ?Hc; try done.
  rewrite Hc2, Hc in *. done.
Qed.

End WithLodash.

Lemma store_stays_within_limits_witness :
  Z.of_nat (length (snapshots
    (performAll Lodash.set Lodash.unset
       [CreateSnapshot "a" 1; CreateSnapshot "b" 2; CreateSnapshot "c" 3]
       (create (JObj []) {| maxHistorySize := 10; maxSnapshotSize := 2 |})))) <= 2.
Proof.
  destruct (store_stays_within_limits Lodash.set Lodash.unset
       [CreateSnapshot "a" 1; CreateSnapshot "b" 2; CreateSnapshot "c" 3]
       (create (JObj []) {| maxHistorySize := 10; maxSnapshotSize := 2 |}))
    as (_ & _ & H & _).
  - cbn. lia.
  - cbn. lia.
  - constructor.
  - exact H.
Defined.

(** X17.  When the history is full and neither the document before a
    batch of patches nor the document after it is [undefined] (so that the
    call returns), the batch drops the oldest event and appends its own,
    which carries the clock reading and the operations and paths of the
    batch; the events in between keep their order.  The same holds for
    any [_.set] and [_.unset].  A call that throws leaves the history as
    it is. *)
Theorem full_history_drops_oldest_event
    (lodash_set : json -> string -> json -> json) (lodash_unset : json -> string -> json)
    (p : IStatePatch) (ps : list IStatePatch) (now : Z) (s : store) :
  1 <= maxHistorySize (config s) ->
  Z.of_nat (length (history s)) = maxHistorySize (config s) ->
  (applyPatchesThrows lodash_set lodash_unset (p :: ps) s = false ->
   exists e : IStateEvent,
     history (applyPatches lodash_set lodash_unset (p :: ps) now s)
       = tail (history s) ++ [e] /\
     event_timestamp e = now /\
     event_patches e = map (fun q => (op q, path q)) (p :: ps) /\
     restoredFrom e = None) /\
  (applyPatchesThrows lodash_set lodash_unset (p :: ps) s = true ->
   history (applyPatches lodash_set lodash_unset (p :: ps) now s) = history s).
Proof.
  intros Hmax Hfull. unfold applyPatchesThrows, applyPatches. cbn [generateEventId].
  split; intros ->; cbn [history]; [|reflexivity].
  eexists. split.
  - unfold addToHistory. rewrite length_app. cbn [length].
    rewrite (proj2 (Z.ltb_lt _ _)) by lia.
    destruct (history s); [cbn in Hfull; lia|reflexivity].
  - cbn. repeat split; reflexivity.
Qed.

Lemma full_history_drops_oldest_event_witness :
  exists e : IStateEvent,
    history (applyPatches Lodash.set Lodash.unset
               [{| op := replace; path := "$.a"; value := JNum 2 |}] 7
               (applyPatches Lodash.set Lodash.unset
                  [{| op := replace; path := "$.a"; value := JNum 1 |}] 6
                  (create (JObj []) {| maxHistorySize := 1; maxSnapshotSize := 2 |})))
      = [e] /\
    event_timestamp e = 7.
Proof.
  destruct (full_history_drops_oldest_event Lodash.set Lodash.unset
              {| op := replace; path := "$.a"; value := JNum 2 |} [] 7
              (applyPatches Lodash.set Lodash.unset
                 [{| op := replace; path := "$.a"; value := JNum 1 |}] 6
                 (create (JObj []) {| maxHistorySize := 1; maxSnapshotSize := 2 |})))
    as [H _].
  - cbn. lia.
  - reflexivity.
  - destruct H as (e & He & Ht & _); [reflexivity|].
    exists e. split; [exact He|exact Ht].
Defined.

(** X18.  After [deleteSnapshot(id)] a restore of [id] throws, while every
    other snapshot is still there. *)
Theorem deleted_snapshot_cannot_be_restored (id id' : string) (now : Z) (s : store) :
  NoDup (map fst (snapshots s)) ->
  id' <> id ->
  restoreSnapshot id now (snd (deleteSnapshot id s)) = None /\
  getSnapshot id' (snd (deleteSnapshot id s)) = getSnapshot id' s.
Proof.
  intros Hnd Hne. unfold restoreSnapshot, getSnapshot, deleteSnapshot.
  cbn [snd snapshots]. rewrite (snap_get_delete_same id _ Hnd). split; [done|].
  by apply snap_get_delete_other.
Qed.

Lemma deleted_snapshot_cannot_be_restored_witness :
  restoreSnapshot "a" 9
    (snd (deleteSnapshot "a"
            (createSnapshot "a" 1 (create (JObj []) defaultConfig)))) = None.
Proof.
  destruct (deleted_snapshot_cannot_be_restored "a" "b" 9
              (createSnapshot "a" 1 (create (JObj []) defaultConfig))) as [H _].
  - cbn. repeat constructor. by intros ?%elem_of_nil.
  - discriminate.
  - exact H.
Defined.

(** X19.  [compactHistory(n)] for [n >= 0] keeps the last [n] events, in order,
    and removes the older ones; a history of at most [n] events is left
    as it is. *)
Theorem compactHistory_keeps_newest_events (n : Z) (s : store) :
  0 <= n ->
  exists removed : list IStateEvent,
    history s = removed ++ history (compactHistory (Some n) s) /\
    Z.of_nat (length (history (compactHistory (Some n) s)))
      = Z.min n (Z.of_nat (length (history s))) /\
    currentState (compactHistory (Some n) s) = currentState s /\
    snapshots (compactHistory (Some n) s) = snapshots s.
Proof.
  intros Hn. unfold compactHistory. cbv zeta.
  change (default 100 (Some n)) with n.
  destruct (Z.leb_spec (Z.of_nat (length (history s))) n).
  - exists []. split; [done|]. split; [lia|done].
  - cbn [history currentState snapshots].
    exists (take (Z.to_nat (Z.of_nat (length (history s)) - n)) (history s)).
    split; [by rewrite take_drop|]. split; [|done].
    rewrite length_drop. lia.
Qed.

Lemma compactHistory_keeps_newest_events_witness :
  Z.of_nat (length (history (compactHistory (Some 1)
    (applyPatches Lodash.set Lodash.unset
       [{| op := replace; path := "$.a"; value := JNum 2 |}] 7
       (applyPatches Lodash.set Lodash.unset
          [{| op := replace; path := "$.a"; value := JNum 1 |}] 6
          (create (JObj []) defaultConfig)))))) = 1.
Proof.
  destruct (compactHistory_keeps_newest_events 1
    (applyPatches Lodash.set Lodash.unset
       [{| op := replace; path := "$.a"; value := JNum 2 |}] 7
       (applyPatches Lodash.set Lodash.unset
          [{| op := replace; path := "$.a"; value := JNum 1 |}] 6
          (create (JObj []) defaultConfig)))) as (removed & _ & H & _); [lia|].
  rewrite H. reflexivity.
Defined.

(** The entry that [oldestFrom] picks has the least timestamp. *)
Lemma oldestFrom_min (l : list (string * StateSnapshot)) :
  forall best : string * Z,
    exists t : Z,
      (oldestFrom best l = fst best /\ t = snd best \/
       exists sn, (oldestFrom best l, sn) ∈ l /\ snap_timestamp sn = t) /\
      t <= snd best /\
      Forall (fun e => t <= snap_timestamp (snd e)) l.
Proof.
  induction l as [|[k sn] l IH]; intros best; cbn [oldestFrom].
  - exists (snd best). split; [by left|]. split; [lia|constructor].
  - destruct (Z.ltb_spec (snap_timestamp sn) (snd best)) as [Hlt|Hge].
    + destruct (IH (k, snap_timestamp sn)) as (t & Hwho & Hle & Hall). cbn in Hle.
      exists t. split; [|split; [lia|]].
      * right. destruct Hwho as [[-> ->]|(sn' & Hin & Ht)].
        -- exists sn. split; [left|done].
        -- exists sn'. split; [by right|done].
      * constructor; [cbn; lia|done].
    + destruct (IH best) as (t & Hwho & Hle & Hall).
      exists t. split; [|split; [lia|]].
      * destruct Hwho as [?|(sn' & Hin & Ht)]; [by left|right].
        exists sn'. split; [by right|done].
      * constructor; [cbn; lia|done].
Qed.

(** X20.  When the store holds [maxSnapshotSize] snapshots and [createSnapshot]
    adds one under a new id, exactly one snapshot is evicted, and it is
    one with the least timestamp among the old snapshots and the new
    one. *)
Theorem full_store_evicts_oldest_snapshot (id : string) (now : Z) (s : store) :
  1 <= maxSnapshotSize (config s) ->
  Z.of_nat (length (snapshots s)) = maxSnapshotSize (config s) ->
  snap_get id (snapshots s) = None ->
  exists (k : string) (sn : StateSnapshot),
    (k, sn) ∈ snapshots s ++
      [(id, {| snap_id := id; snap_state := cloneDeep (currentState s);
               snap_timestamp := now |})] /\
    Forall (fun e => snap_timestamp sn <= snap_timestamp (snd e))
      (snapshots s ++
         [(id, {| snap_id := id; snap_state := cloneDeep (currentState s);
                  snap_timestamp := now |})]) /\
    snapshots (createSnapshot id now s) =
      snap_delete k
        (snapshots s ++
           [(id, {| snap_id := id; snap_state := cloneDeep (currentState s);
                    snap_timestamp := now |})]).
Proof.
  intros Hmax Hfull Habs. unfold createSnapshot. cbn [snapshots].
  set (new := {| snap_id := id; snap_state := cloneDeep (currentState s);
                 snap_timestamp := now |}).
  rewrite (snap_set_absent _ _ _ Habs), length_app. cbn [length].
  rewrite (proj2 (Z.ltb_lt _ _)) by lia.
  destruct (snapshots s ++ [(id, new)]) as [|[k0 sn0] l] eqn:Hl.
  { destruct (snapshots s); discriminate. }
  cbn [oldestSnapshot].
  destruct (oldestFrom_min l (k0, snap_timestamp sn0)) as (t & Hwho & Hle & Hall).
  cbn [fst snd] in *.
  destruct Hwho as [[Hk Ht]|(sn & Hin & Ht)].
  - exists k0, sn0. rewrite Hk. split; [left|]. split; [|done].
    subst t. constructor; [cbn; lia|done].
  - exists (oldestFrom (k0, snap_timestamp sn0) l), sn. split; [by right|].
    split; [|done]. subst t. constructor; [cbn; lia|done].
Qed.

Lemma full_store_evicts_oldest_snapshot_witness :
  map fst (snapshots
    (createSnapshot "c" 3
       (createSnapshot "b" 2
          (createSnapshot "a" 1
             (create (JObj []) {| maxHistorySize := 10; maxSnapshotSize := 2 |})))))
    = ["b"; "c"].
Proof.
  destruct (full_store_evicts_oldest_snapshot "c" 3
       (createSnapshot "b" 2
          (createSnapshot "a" 1
             (create (JObj []) {| maxHistorySize := 10; maxSnapshotSize := 2 |}))))
    as (k & sn & _ & _ & H).
  - cbn. lia.
  - reflexivity.
  - reflexivity.
  - reflexivity.
Defined.

End StateStoreMore.

(** ** Tool orchestration: what throws, what stops a sequence, threading *)

Module ToolOrchestratorMore.
Import Json ToolOrchestrator.

Section Orchestrator.

Variable registry : gmap string ITool.
Variable enabled : ToolType -> bool.
Variable validateTool : ITool -> bool.
Variable executeInternal : nat -> ITool -> Context -> IToolResult + Error.

(** [executeTool] on a tool that can run. *)
Lemma executeTool_runnable (i : nat) (toolId : string) (ctx : Context) :
  runnable registry enabled toolId ->
  exists result : IToolResult,
    executeTool registry enabled validateTool executeInternal i toolId ctx = inl result /\
    (success result = true ->
     exists tool, registry !! toolId = Some tool /\ validateTool tool = true /\
                  executeInternal i tool ctx = inl result).
Proof.
  intros (tool & Hreg & Hknown & Hen). unfold executeTool. rewrite Hreg.
  assert (Hexec : forall t, tool_type tool = t ->
            exists result,
              execute enabled validateTool executeInternal t i tool ctx = inl result /\
              (success result = true ->
               validateTool tool = true /\ executeInternal i tool ctx = inl result)).
  { intros t Ht. unfold execute. rewrite <- Ht, Hen.
    rewrite bool_decide_eq_true_2 by done. cbn [andb negb].
    destruct (validateTool tool); cbn [negb].
    - destruct (executeInternal i tool ctx) as [r|e]; eexists; split; eauto.
      cbn. discriminate.
    - eexists; split; [reflexivity|]. cbn. discriminate. }
  destruct (tool_type tool) eqn:Ht; [| | |done];
    destruct (Hexec _ eq_refl) as (r & Hr & Hs); exists r; (split; [exact Hr|]);
    intros Hok; exists tool; destruct (Hs Hok); done.
Qed.

(** X21.  For a tool that is registered with a known type and an enabled
    executor, [executeTool] never throws: a failed validation and an
    error thrown by the tool come back as results with [success: false],
    and a result with [success: true] is the one the tool produced. *)
Theorem runnable_tool_never_throws (i : nat) (toolId : string) (ctx : Context) :
  runnable registry enabled toolId ->
  exists result : IToolResult,
    executeTool registry enabled validateTool executeInternal i toolId ctx = inl result /\
    (success result = true ->
     exists tool, registry !! toolId = Some tool /\ validateTool tool = true /\
                  executeInternal i tool ctx = inl result).
Proof.
  intros Hrun. destruct (executeTool_runnable i toolId ctx Hrun) as (r & Hr & Hs).
  exists r. split; [exact Hr|exact Hs].
Qed.

(** X22.  When every listed tool is registered with a known type and an
    enabled executor, [executeSequence] calls every tool, in the order of
    the list, and returns one result per tool, with or without
    [continueOnError]: a result with [success: false] does not end the
    sequence. *)
Theorem sequence_of_runnable_tools_runs_to_the_end
    (toolIds : list string) (ctx : Context) (continueOnError : bool) :
  Forall (runnable registry enabled) toolIds ->
  map fst (sequenceCalls registry enabled validateTool executeInternal
             toolIds ctx continueOnError) = toolIds /\
  length (executeSequence registry enabled validateTool executeInternal
            toolIds ctx continueOnError) = length toolIds.
Proof.
  unfold sequenceCalls, executeSequence. generalize O as i. revert ctx.
  induction toolIds as [|toolId rest IH]; intros ctx i Hall; [done|].
  apply Forall_cons in Hall as [Hrun Hall]. cbn [sequenceFrom].
  destruct (executeTool_runnable i toolId ctx Hrun) as (r & -> & _).
  destruct (IH (nextContext ctx r) (S i) Hall) as [Hc Hl].
  destruct (sequenceFrom registry enabled validateTool executeInternal
              continueOnError (S i) rest (nextContext ctx r)) as [results calls].
  cbn in *. by rewrite Hc, Hl.
Qed.

(** X23.  Without [continueOnError], a tool id that is not registered ends the
    sequence: the tools before it that can run are called, its own
    result is the error, and no tool after it is called. *)
Theorem unknown_tool_ends_the_sequence
    (before after : list string) (missing : string) (ctx : Context) :
  Forall (runnable registry enabled) before ->
  registry !! missing = None ->
  map fst (sequenceCalls registry enabled validateTool executeInternal
             (before ++ missing :: after) ctx false) = before ++ [missing] /\
  length (executeSequence registry enabled validateTool executeInternal
            (before ++ missing :: after) ctx false) = S (length before) /\
  last (executeSequence registry enabled validateTool executeInternal
          (before ++ missing :: after) ctx false)
    = Some (errorResult (ToolNotFound missing)).
Proof.
  unfold sequenceCalls, executeSequence. generalize O as i. revert ctx.
  induction before as [|toolId rest IH]; intros ctx i Hall Hmiss.
  - cbn [app sequenceFrom]. unfold executeTool. rewrite Hmiss. done.
  - apply Forall_cons in Hall as [Hrun Hall]. cbn [app sequenceFrom].
    destruct (executeTool_runnable i toolId ctx Hrun) as (r & -> & _).
    destruct (IH (nextContext ctx r) (S i) Hall Hmiss) as (Hc & Hl & Hlast).
    destruct (sequenceFrom registry enabled validateTool executeInternal
                false (S i) (rest ++ missing :: after) (nextContext ctx r))
      as [results calls].
    cbn in *. rewrite Hc, Hl. split; [done|]. split; [done|].
    destruct results; [discriminate|exact Hlast].
Qed.

(** X24.  With [continueOnError], every listed tool is called and has one
    result, whether it can run or not. *)
Theorem continueOnError_calls_every_tool (toolIds : list string) (ctx : Context) :
  map fst (sequenceCalls registry enabled validateTool executeInternal
             toolIds ctx true) = toolIds /\
  length (executeSequence registry enabled validateTool executeInternal
            toolIds ctx true) = length toolIds.
Proof.
  unfold sequenceCalls, executeSequence. generalize O as i. revert ctx.
  induction toolIds as [|toolId rest IH]; intros ctx i; [done|].
  cbn [sequenceFrom].
  destruct (executeTool registry enabled validateTool executeInternal i toolId ctx)
    as [r|e].
  - destruct (IH (nextContext ctx r) (S i)) as [Hc Hl].
    destruct (sequenceFrom registry enabled validateTool executeInternal
                true (S i) rest (nextContext ctx r)) as [results calls].
    cbn in *. by rewrite Hc, Hl.
  - destruct (IH ctx (S i)) as [Hc Hl].
    destruct (sequenceFrom registry enabled validateTool executeInternal
                true (S i) rest ctx) as [results calls].
    cbn in *. by rewrite Hc, Hl.
Qed.

End Orchestrator.

Lemma runnable_tool_never_throws_witness :
  exists result : IToolResult,
    executeTool (<["a" := {| tool_id := "a"; tool_type := server |}]> ∅)
      (fun _ => true) (fun _ => true) (fun _ _ _ => inr (Thrown (JStr "boom")))
      0 "a" {| state := JObj []; previousResults := JUndefined |} = inl result.
Proof.
  destruct (runnable_tool_never_throws
              (<["a" := {| tool_id := "a"; tool_type := server |}]> ∅)
              (fun _ => true) (fun _ => true) (fun _ _ _ => inr (Thrown (JStr "boom")))
              0 "a" {| state := JObj []; previousResults := JUndefined |})
    as (r & Hr & _).
  - eexists. split; [reflexivity|]. split; [discriminate|reflexivity].
  - exists r. exact Hr.
Defined.

Lemma sequence_of_runnable_tools_runs_to_the_end_witness :
  length (executeSequence (<["a" := {| tool_id := "a"; tool_type := server |}]> ∅)
            (fun _ => true) (fun _ => true) (fun _ _ _ => inr (Thrown (JStr "boom")))
            ["a"; "a"] {| state := JObj []; previousResults := JUndefined |} false)
    = 2%nat.
Proof.
  destruct (sequence_of_runnable_tools_runs_to_the_end
              (<["a" := {| tool_id := "a"; tool_type := server |}]> ∅)
              (fun _ => true) (fun _ => true) (fun _ _ _ => inr (Thrown (JStr "boom")))
              ["a"; "a"] {| state := JObj []; previousResults := JUndefined |} false)
    as [_ H].
  - repeat constructor;
      (eexists; split; [reflexivity|]; split; [discriminate|reflexivity]).
  - exact H.
Defined.

Lemma unknown_tool_ends_the_sequence_witness :
  map fst (sequenceCalls (<["a" := {| tool_id := "a"; tool_type := server |}]> ∅)
             (fun _ => true) (fun _ => true)
             (fun _ _ _ => inl {| success := true; data := JNull; error := None |})
             (["a"] ++ "x" :: ["a"]) {| state := JObj []; previousResults := JUndefined |}
             false)
    = ["a"] ++ ["x"].
Proof.
  destruct (unknown_tool_ends_the_sequence
              (<["a" := {| tool_id := "a"; tool_type := server |}]> ∅)
              (fun _ => true) (fun _ => true)
              (fun _ _ _ => inl {| success := true; data := JNull; error := None |})
              ["a"] ["a"] "x" {| state := JObj []; previousResults := JUndefined |})
    as [H _].
  - repeat constructor.
    eexists. split; [reflexivity|]. split; [discriminate|reflexivity].
  - reflexivity.
  - exact H.
Defined.

(** Properties written one after the other: a key that is not written
    keeps its value, a key written once has the value written. *)
Lemma fold_assoc_set_other (k : string) (fields : list (string * json)) :
  forall base : list (string * json),
    k ∉ map fst fields ->
    assoc_get k (fold_left (fun acc kv => assoc_set (fst kv) (snd kv) acc) fields base)
      = assoc_get k base.
Proof.
  induction fields as [|[k1 v1] fields IH]; intros base Hk; [done|].
  cbn [fold_left fst snd]. cbn [map fst] in Hk.
  apply not_elem_of_cons in Hk as [Hne Hk].
  rewrite IH by done. by apply JsonProps.assoc_get_set_other.
Qed.

Lemma fold_assoc_set_written (k : string) (v : json) (fields : list (string * json)) :
  forall base : list (string * json),
    NoDup (map fst fields) ->
    (k, v) ∈ fields ->
    assoc_get k (fold_left (fun acc kv => assoc_set (fst kv) (snd kv) acc) fields base)
      = Some v.
Proof.
  induction fields as [|[k1 v1] fields IH]; intros base Hnd Hin;
    [by apply elem_of_nil in Hin|].
  cbn [fold_left fst snd]. cbn [map fst] in Hnd.
  apply NoDup_cons in Hnd as [Hk1 Hnd].
  apply elem_of_cons in Hin as [[= -> ->]|Hin].
  - rewrite fold_assoc_set_other by done. apply JsonProps.assoc_get_set_same.
  - by apply IH.
Qed.

(** X25.  Threading of results.  When the first tool of a sequence
    returns a result, the second tool is called next.  After a result with
    [success: false], or with falsy [data] (none at all, as in the results
    the executor builds for a failure), it gets the context of the first.
    After a result with [success: true] and an object as [data], it gets
    a context whose [previousResults] is that object and whose [state]
    has every property of the object with the value written, and every
    other property as the state had it before. *)
Theorem next_tool_sees_result_data
    (registry : gmap string ITool) (enabled : ToolType -> bool)
    (validateTool : ITool -> bool)
    (executeInternal : nat -> ITool -> Context -> IToolResult + Error)
    (first second : string) (rest : list string) (ctx : Context)
    (continueOnError : bool) (result : IToolResult) :
  executeTool registry enabled validateTool executeInternal 0 first ctx = inl result ->
  exists ctx2 : Context,
    sequenceCalls registry enabled validateTool executeInternal
      (first :: second :: rest) ctx continueOnError !! 1%nat = Some (second, ctx2) /\
    (success result = false \/ truthy (data result) = false -> ctx2 = ctx) /\
    (forall fields : list (string * json),
       success result = true ->
       data result = JObj fields ->
       NoDup (map fst fields) ->
       previousResults ctx2 = JObj fields /\
       (forall k v, (k, v) ∈ fields -> Lodash.getProp (state ctx2) k = v) /\
       (forall k, k ∉ map fst fields ->
          Lodash.getProp (state ctx2) k
            = default JUndefined (assoc_get k (spreadProps (state ctx))))).
Proof.
  intros Hfirst. exists (nextContext ctx result). split; [|split].
  - unfold sequenceCalls. cbn [sequenceFrom]. rewrite Hfirst.
    destruct (executeTool registry enabled validateTool executeInternal 1 second
                (nextContext ctx result)) as [r2|e2].
    + destruct (sequenceFrom registry enabled validateTool executeInternal
                  continueOnError 2 rest (nextContext (nextContext ctx result) r2)).
      reflexivity.
    + destruct continueOnError; [|reflexivity].
      destruct (sequenceFrom registry enabled validateTool executeInternal
                  true 2 rest (nextContext ctx result)).
      reflexivity.
  - unfold nextContext. intros [-> | ->]; [done|]. by rewrite andb_false_r.
  - intros fields Hok Hdata Hnd. unfold nextContext. rewrite Hok, Hdata.
    cbn [truthy andb previousResults state objectSpread spreadProps Lodash.getProp].
    split; [done|]. split.
    + intros k v Hin. by rewrite (fold_assoc_set_written k v fields _ Hnd Hin).
    + intros k Hk. by rewrite fold_assoc_set_other.
Qed.

Lemma next_tool_sees_result_data_witness :
  exists ctx2 : Context,
    sequenceCalls
      (<["a" := {| tool_id := "a"; tool_type := server |}]> ∅)
      (fun _ => true) (fun _ => true)
      (fun _ _ _ => inl {| success := true; data := JObj [("make", JStr "Toyota")];
                           error := None |})
      ("a" :: "a" :: []) {| state := JObj [("year", JNum 2020)];
                            previousResults := JUndefined |} false
      !! 1%nat = Some ("a", ctx2) /\
    Lodash.getProp (state ctx2) "make" = JStr "Toyota".
Proof.
  destruct (next_tool_sees_result_data
      (<["a" := {| tool_id := "a"; tool_type := server |}]> ∅)
      (fun _ => true) (fun _ => true)
      (fun _ _ _ => inl {| success := true; data := JObj [("make", JStr "Toyota")];
                           error := None |})
      "a" "a" [] {| state := JObj [("year", JNum 2020)]; previousResults := JUndefined |}
      false
      {| success := true; data := JObj [("make", JStr "Toyota")]; error := None |})
    as (ctx2 & Hc & _ & Hs).
  - reflexivity.
  - exists ctx2. split; [exact Hc|].
    destruct (Hs [("make", JStr "Toyota")]) as (_ & Hw & _).
    + reflexivity.
    + reflexivity.
    + repeat constructor. by intros ?%elem_of_nil.
    + apply Hw. left.
Defined.

End ToolOrchestratorMore.

(** ** Cache: expiry, the storage tiers, deletion, independence *)

Module CacheManagerMore.
Import Json CacheManager.

(** X26.  An entry read after its time to live is a miss in every tier, and the
    read removes it from the tier.  The time to live is positive, the
    clock reading of [set] is not negative, and [window] exists. *)
Theorem expired_entry_is_missed_and_removed
    (key : string) (v : json) (ttlSeconds now later : Z)
    (strategy : CacheStrategy) (c : cache) :
  hasWindow c = true ->
  0 <= now -> 0 < ttlSeconds ->
  now + ttlSeconds * 1000 < later ->
  stored key strategy (snd (set key v ttlSeconds strategy now c)) = true /\
  fst (get key strategy later (snd (set key v ttlSeconds strategy now c))) = JNull /\
  stored key strategy
    (snd (get key strategy later (snd (set key v ttlSeconds strategy now c)))) = false.
Proof.
  intros Hw Hnow Httl Hlate. destruct strategy; unfold set, get, stored.
  - cbn [snd with_memory memoryCache]. unfold nodeCache_set, nodeCache_get.
    rewrite lookup_insert_eq.
    rewrite (proj2 (Z.eqb_neq ttlSeconds 0)) by lia.
    rewrite (proj2 (Z.eqb_neq (now + ttlSeconds * 1000) 0)) by lia.
    rewrite (proj2 (Z.ltb_lt _ _)) by lia.
    cbn [negb andb fst snd truthy with_memory memoryCache].
    rewrite lookup_delete_eq.
    split; [by apply bool_decide_eq_true_2|]. split; [done|].
    apply bool_decide_eq_false_2. by intros [? ?].
  - rewrite Hw. cbn [negb snd]. unfold getFromLocalStorage.
    cbn [hasWindow with_local localItems]. rewrite Hw. cbn [negb].
    rewrite lookup_insert_eq. cbn [createdAt ttl newEntry].
    rewrite (proj2 (Z.ltb_lt _ _)) by lia.
    cbn [fst snd with_local localItems]. rewrite lookup_delete_eq.
    split; [by apply bool_decide_eq_true_2|]. split; [done|].
    apply bool_decide_eq_false_2. by intros [? ?].
  - rewrite Hw. cbn [negb snd]. unfold getFromSessionStorage.
    cbn [hasWindow with_session sessionItems]. rewrite Hw. cbn [negb].
    rewrite lookup_insert_eq. cbn [createdAt ttl newEntry].
    rewrite (proj2 (Z.ltb_lt _ _)) by lia.
    cbn [fst snd with_session sessionItems]. rewrite lookup_delete_eq.
    split; [by apply bool_decide_eq_true_2|]. split; [done|].
    apply bool_decide_eq_false_2. by intros [? ?].
Qed.

Lemma expired_entry_is_missed_and_removed_witness :
  fst (get "k" memory 1001
         (snd (set "k" (JStr "v") 1 memory 0
                 {| memoryCache := ∅; localItems := ∅; sessionItems := ∅;
                    hasWindow := true |}))) = JNull.
Proof.
  destruct (expired_entry_is_missed_and_removed "k" (JStr "v") 1 0 1001 memory
              {| memoryCache := ∅; localItems := ∅; sessionItems := ∅;
                 hasWindow := true |}) as (_ & H & _);
    [reflexivity|lia|lia|lia|exact H].
Defined.

(** [JSON.parse(JSON.stringify(v))] is [v] for a value without
    [undefined] and without named properties on arrays. *)
Lemma jsonRoundTrip_safe (v : json) : jsonSafe v = true -> jsonRoundTrip v = v.
Proof.
  induction v as [| | | | |elems props IHe IHp|fields IH] using json_ind;
    cbn [jsonSafe jsonRoundTrip]; try done.
  - intros H. apply andb_true_iff in H as [He Hp].
    destruct props; [|discriminate]. f_equal.
    clear IHp. induction elems as [|x elems IHl]; [done|].
    cbn [forallb] in He. apply andb_true_iff in He as [Hx He].
    apply Forall_cons in IHe as [IHx IHe]. cbn [map].
    rewrite (IHl IHe He). f_equal.
    destruct x; try done; by apply IHx.
  - intros H. f_equal.
    induction fields as [|[k x] fields IHl]; [done|].
    cbn [forallb] in H. apply andb_true_iff in H as [Hx H].
    apply Forall_cons in IH as [IHx IH]. cbn [flat_map].
    rewrite (IHl IH H). cbn in IHx.
    destruct x; try done; cbn [app]; f_equal; f_equal; by apply IHx.
Qed.

(** X27.  The [localStorage] and [sessionStorage] tiers return what was set,
    for every JSON value, as long as the entry has not expired: the
    falsy values 0, the empty string and [false] come back as they are,
    unlike in the memory tier. *)
Theorem storage_tier_returns_falsy_values
    (key : string) (v : json) (ttlSeconds now later : Z)
    (strategy : CacheStrategy) (c : cache) :
  strategy <> memory ->
  hasWindow c = true ->
  jsonSafe v = true ->
  later <= now + ttlSeconds * 1000 ->
  fst (set key v ttlSeconds strategy now c) = true /\
  fst (get key strategy later (snd (set key v ttlSeconds strategy now c))) = v.
Proof.
  intros Hs Hw Hv Hlive. destruct strategy; [done| |]; unfold set, get; rewrite Hw;
    cbn [negb fst snd].
  - unfold getFromLocalStorage. cbn [hasWindow with_local localItems]. rewrite Hw.
    cbn [negb]. rewrite lookup_insert_eq. cbn [createdAt ttl newEntry entry_value].
    rewrite (proj2 (Z.ltb_ge _ _)) by lia. cbn [fst].
    split; [done|by apply jsonRoundTrip_safe].
  - unfold getFromSessionStorage. cbn [hasWindow with_session sessionItems]. rewrite Hw.
    cbn [negb]. rewrite lookup_insert_eq. cbn [createdAt ttl newEntry entry_value].
    rewrite (proj2 (Z.ltb_ge _ _)) by lia. cbn [fst].
    split; [done|by apply jsonRoundTrip_safe].
Qed.

Lemma storage_tier_returns_falsy_values_witness :
  fst (get "k" sessionStorage 10
         (snd (set "k" (JBool false) 300 sessionStorage 0
                 {| memoryCache := ∅; localItems := ∅; sessionItems := ∅;
                    hasWindow := true |}))) = JBool false.
Proof.
  destruct (storage_tier_returns_falsy_values "k" (JBool false) 300 0 10 sessionStorage
              {| memoryCache := ∅; localItems := ∅; sessionItems := ∅;
                 hasWindow := true |}) as [_ H];
    [discriminate|reflexivity|reflexivity|lia|exact H].
Defined.

(** X28.  A time to live of 0 means two different things: the memory tier
    keeps the entry for good, the storage tiers drop it at the first read
    after the millisecond it was set in. *)
Theorem zero_ttl_differs_between_tiers
    (key : string) (v : json) (now later : Z) (strategy : CacheStrategy) (c : cache) :
  hasWindow c = true ->
  truthy v = true ->
  now < later ->
  fst (get key strategy later (snd (set key v 0 strategy now c))) =
    match strategy with
    | memory => v
    | _ => JNull
    end.
Proof.
  intros Hw Hv Hlater. destruct strategy; unfold set, get.
  - cbn [snd with_memory memoryCache]. unfold nodeCache_set, nodeCache_get.
    rewrite lookup_insert_eq. cbn. by rewrite Hv.
  - rewrite Hw. cbn [negb snd]. unfold getFromLocalStorage.
    cbn [hasWindow with_local localItems]. rewrite Hw. cbn [negb].
    rewrite lookup_insert_eq. cbn [createdAt ttl newEntry].
    by rewrite (proj2 (Z.ltb_lt _ _)) by lia.
  - rewrite Hw. cbn [negb snd]. unfold getFromSessionStorage.
    cbn [hasWindow with_session sessionItems]. rewrite Hw. cbn [negb].
    rewrite lookup_insert_eq. cbn [createdAt ttl newEntry].
    by rewrite (proj2 (Z.ltb_lt _ _)) by lia.
Qed.

Lemma zero_ttl_differs_between_tiers_witness :
  fst (get "k" memory 999999
         (snd (set "k" (JStr "v") 0 memory 0
                 {| memoryCache := ∅; localItems := ∅; sessionItems := ∅;
                    hasWindow := true |}))) = JStr "v" /\
  fst (get "k" localStorage 1
         (snd (set "k" (JStr "v") 0 localStorage 0
                 {| memoryCache := ∅; localItems := ∅; sessionItems := ∅;
                    hasWindow := true |}))) = JNull.
Proof.
  split.
  - apply (zero_ttl_differs_between_tiers "k" (JStr "v") 0 999999 memory);
      [reflexivity|reflexivity|lia].
  - apply (zero_ttl_differs_between_tiers "k" (JStr "v") 0 1 localStorage);
      [reflexivity|reflexivity|lia].
Defined.

(** After [delete], [get] misses and the tier holds no entry for the key,
    in every tier and at every time; the other tiers are not touched. *)
Theorem deleted_key_is_missed (key : string) (strategy : CacheStrategy)
    (now : Z) (c : cache) :
  fst (get key strategy now (snd (delete_key key strategy c))) = JNull /\
  (hasWindow c = true ->
   stored key strategy (snd (delete_key key strategy c)) = false) /\
  (forall other key', other <> strategy ->
     stored key' other (snd (delete_key key strategy c)) = stored key' other c).
Proof.
  destruct strategy; unfold get, delete_key, stored.
  - cbn [snd with_memory memoryCache localItems sessionItems]. unfold nodeCache_get.
    rewrite lookup_delete_eq. cbn [fst truthy]. split; [done|]. split.
    + intros _. apply bool_decide_eq_false_2. by intros [? ?].
    + by intros [] key' Hne.
  - destruct (hasWindow c) eqn:Hw; cbn [negb snd];
      unfold getFromLocalStorage; cbn [hasWindow with_local localItems memoryCache
                                       sessionItems]; rewrite Hw; cbn [negb fst].
    + rewrite lookup_delete_eq. split; [done|]. split.
      * intros _. apply bool_decide_eq_false_2. by intros [? ?].
      * by intros [] key' Hne.
    + split; [done|]. split; [done|]. by intros [] key' Hne.
  - destruct (hasWindow c) eqn:Hw; cbn [negb snd];
      unfold getFromSessionStorage; cbn [hasWindow with_session localItems memoryCache
                                         sessionItems]; rewrite Hw; cbn [negb fst].
    + rewrite lookup_delete_eq. split; [done|]. split.
      * intros _. apply bool_decide_eq_false_2. by intros [? ?].
      * by intros [] key' Hne.
    + split; [done|]. split; [done|]. by intros [] key' Hne.
Qed.

Lemma prefixed_key_inj (prefix k k' : string) :
  prefix +:+ k = prefix +:+ k' -> k = k'.
Proof. induction prefix as [|c prefix IH]; cbn; [done|]. intros [= H]. by apply IH. Qed.

(** X29.  [set] under one key of one tier does not change what [get] returns
    for any other key or in any other tier. *)
Theorem set_leaves_other_entries
    (key key' : string) (v : json) (ttlSeconds now later : Z)
    (strategy strategy' : CacheStrategy) (c : cache) :
  strategy <> strategy' \/ key <> key' ->
  fst (get key' strategy' later (snd (set key v ttlSeconds strategy now c)))
    = fst (get key' strategy' later c).
Proof.
  intros Hne.
  assert (Hl : strategy = localStorage -> strategy' = localStorage ->
               localStoragePrefix +:+ key <> localStoragePrefix +:+ key').
  { intros -> -> Heq. apply prefixed_key_inj in Heq. by destruct Hne. }
  assert (Hs : strategy = sessionStorage -> strategy' = sessionStorage ->
               sessionStoragePrefix +:+ key <> sessionStoragePrefix +:+ key').
  { intros -> -> Heq. apply prefixed_key_inj in Heq. by destruct Hne. }
  assert (Hm : strategy = memory -> strategy' = memory -> key <> key').
  { intros -> ->. by destruct Hne. }
  destruct strategy, strategy'; unfold set, get;
    try (destruct (hasWindow c) eqn:Hw); cbn [negb snd];
    unfold getFromLocalStorage, getFromSessionStorage, nodeCache_get, nodeCache_set;
    cbn [hasWindow with_memory with_local with_session memoryCache localItems
         sessionItems];
    rewrite ?Hw; cbn [negb];
    rewrite ?(lookup_insert_ne _ _ _ _ (Hm eq_refl eq_refl)),
            ?(lookup_insert_ne _ _ _ _ (Hl eq_refl eq_refl)),
            ?(lookup_insert_ne _ _ _ _ (Hs eq_refl eq_refl));
    repeat match goal with
           | |- context [match ?m !! ?k with _ => _ end] => destruct (m !! k) as [[]|]
           | |- context [if ?b then _ else _] => destruct b
           end; reflexivity.
Qed.

Lemma set_leaves_other_entries_witness :
  fst (get "a" memory 5
         (snd (set "b" (JStr "v") 1 memory 0
                 {| memoryCache := ∅; localItems := ∅; sessionItems := ∅;
                    hasWindow := true |})))
    = fst (get "a" memory 5
             {| memoryCache := ∅; localItems := ∅; sessionItems := ∅;
                hasWindow := true |}).
Proof. apply set_leaves_other_entries. right. discriminate. Defined.

End CacheManagerMore.

(** ** Tool registry: the indices agree with the tools *)

Module ToolRegistryMore.
Import ToolRegistry.

(** Membership in an index after [addToIndex] and [removeFromIndex]. *)
Lemma elem_addToIndex (i i' : string) (index : gmap string (gset string)) (k k' : string) :
  i' ∈ default ∅ (addToIndex i index k !! k') <->
  (i' = i /\ k' = k) \/ i' ∈ default ∅ (index !! k').
Proof.
  unfold addToIndex. destruct (decide (k' = k)) as [->|Hne].
  - rewrite lookup_insert_eq. cbn. set_solver.
  - rewrite lookup_insert_ne by done. set_solver.
Qed.

Lemma elem_removeFromIndex (i i' : string) (index : gmap string (gset string))
    (k k' : string) :
  i' ∈ default ∅ (removeFromIndex i index k !! k') <->
  i' ∈ default ∅ (index !! k') /\ ~ (i' = i /\ k' = k).
Proof.
  unfold removeFromIndex. destruct (index !! k) as [ids|] eqn:Hk.
  - destruct (decide (ids ∖ {[i]} = ∅)) as [Hempty|Hsome].
    + destruct (decide (k' = k)) as [->|Hne].
      * rewrite lookup_delete_eq, Hk. cbn. set_solver.
      * rewrite lookup_delete_ne by done. set_solver.
    + destruct (decide (k' = k)) as [->|Hne].
      * rewrite lookup_insert_eq, Hk. cbn. set_solver.
      * rewrite lookup_insert_ne by done. set_solver.
  - destruct (decide (k' = k)) as [->|Hne]; [rewrite Hk; cbn|]; set_solver.
Qed.

Lemma elem_fold_addToIndex (i i' : string) (ks : list string) (k' : string) :
  forall index : gmap string (gset string),
    i' ∈ default ∅ (fold_left (addToIndex i) ks index !! k') <->
    (i' = i /\ k' ∈ ks) \/ i' ∈ default ∅ (index !! k').
Proof.
  induction ks as [|k ks IH]; intros index; cbn [fold_left].
  - set_solver.
  - rewrite IH, elem_addToIndex. set_solver.
Qed.

Lemma elem_fold_removeFromIndex (i i' : string) (ks : list string) (k' : string) :
  forall index : gmap string (gset string),
    i' ∈ default ∅ (fold_left (removeFromIndex i) ks index !! k') <->
    i' ∈ default ∅ (index !! k') /\ ~ (i' = i /\ k' ∈ ks).
Proof.
  induction ks as [|k ks IH]; intros index; cbn [fold_left].
  - set_solver.
  - rewrite IH, elem_removeFromIndex. set_solver.
Qed.

Lemma consistent_register (tool : ITool) (r r' : registry) :
  consistent r -> register tool r = Some r' -> consistent r'.
Proof.
  intros (Hid & Hcat & Htag). unfold register.
  destruct (tools r !! id tool) eqn:Hfresh; [done|]. intros [= <-].
  split; [|split]; cbn [tools].
  - intros i t. destruct (decide (i = id tool)) as [->|Hne].
    + rewrite lookup_insert_eq. by intros [= <-].
    + rewrite lookup_insert_ne by done. apply Hid.
  - intros i c. unfold idsByCategory. cbn [categories].
    rewrite elem_addToIndex. fold (idsByCategory c r). rewrite Hcat.
    destruct (decide (i = id tool)) as [->|Hne].
    + rewrite lookup_insert_eq. rewrite Hfresh. split.
      * intros [[_ ->]|(t & [=] & _)]. by exists tool.
      * intros (t & [= <-] & <-). by left.
    + rewrite lookup_insert_ne by done. split.
      * intros [[? _]|?]; done.
      * by right.
  - intros i tag. unfold idsByTag. cbn [tagIndex].
    rewrite elem_fold_addToIndex. fold (idsByTag tag r). rewrite Htag.
    destruct (decide (i = id tool)) as [->|Hne].
    + rewrite lookup_insert_eq. rewrite Hfresh. split.
      * intros [[_ ?]|(t & [=] & _)]. by exists tool.
      * intros (t & [= <-] & ?). by left.
    + rewrite lookup_insert_ne by done. split.
      * intros [[? _]|?]; done.
      * by right.
Qed.

Lemma consistent_unregister (toolId : string) (r : registry) :
  consistent r -> consistent (snd (unregister toolId r)).
Proof.
  intros (Hid & Hcat & Htag). unfold unregister.
  destruct (tools r !! toolId) as [tool|] eqn:Hreg; [|done]. cbn [snd].
  split; [|split]; cbn [tools].
  - intros i t Hi. apply lookup_delete_Some in Hi as [_ Hi]. by apply Hid.
  - intros i c. unfold idsByCategory. cbn [categories].
    rewrite elem_removeFromIndex. fold (idsByCategory c r). rewrite Hcat.
    split.
    + intros [(t & Ht & Hc) Hnot]. exists t. split; [|done].
      apply lookup_delete_Some. split; [|done]. intros <-.
      apply Hnot. split; [done|]. rewrite Hreg in Ht. by inversion Ht; subst.
    + intros (t & Ht & Hc). apply lookup_delete_Some in Ht as [Hne Ht].
      split; [by exists t|]. intros [-> _]. done.
  - intros i tag. unfold idsByTag. cbn [tagIndex].
    rewrite elem_fold_removeFromIndex. fold (idsByTag tag r). rewrite Htag.
    split.
    + intros [(t & Ht & Hc) Hnot]. exists t. split; [|done].
      apply lookup_delete_Some. split; [|done]. intros <-.
      apply Hnot. split; [done|]. rewrite Hreg in Ht. by inversion Ht; subst.
    + intros (t & Ht & Hc). apply lookup_delete_Some in Ht as [Hne Ht].
      split; [by exists t|]. intros [-> _]. done.
Qed.

(** X30.  After any sequence of [register] and [unregister] calls on a new
    registry the indices agree with the tools: every tool is stored under
    its own id; the ids listed for a category are exactly the ids of the
    registered tools of that category (with [general] for a missing or
    empty one), and the ids listed for a tag exactly those of the
    registered tools carrying the tag.  So [getByCategory] and [getByTag]
    always find their tools. *)
Theorem registry_indices_agree_with_tools (cs : list call) :
  consistent (performAll cs empty) /\
  (forall i c, i ∈ idsByCategory c (performAll cs empty) ->
     is_Some (get i (performAll cs empty))) /\
  (forall i tag, i ∈ idsByTag tag (performAll cs empty) ->
     is_Some (get i (performAll cs empty))).
Proof.
  assert (Hall : forall cs r, consistent r -> consistent (performAll cs r)).
  { clear. intros cs. induction cs as [|c cs IH]; intros r Hr; [done|].
    change (performAll (c :: cs) r) with (performAll cs (perform r c)).
    apply IH. destruct c as [tool|toolId]; cbn [perform].
    - destruct (register tool r) as [r'|] eqn:Hreg; cbn [default]; [|done].
      by apply (consistent_register tool r).
    - by apply consistent_unregister. }
  assert (Hempty : consistent empty).
  { split; [|split]; cbn.
    - intros i t. by rewrite lookup_empty.
    - intros i c. unfold idsByCategory. cbn. rewrite lookup_empty. cbn. split.
      + by intros ?%elem_of_empty.
      + intros (t & Ht & _). by rewrite lookup_empty in Ht.
    - intros i tag. unfold idsByTag. cbn. rewrite lookup_empty. cbn. split.
      + by intros ?%elem_of_empty.
      + intros (t & Ht & _). by rewrite lookup_empty in Ht. }
  pose proof (Hall cs empty Hempty) as Hc. split; [exact Hc|].
  destruct Hc as (_ & Hcat & Htag). unfold get. split.
  - intros i c Hi. apply Hcat in Hi as (t & -> & _). eauto.
  - intros i tag Hi. apply Htag in Hi as (t & -> & _). eauto.
Qed.

End ToolRegistryMore.
